(** * infrastructure-weaver: the graph queries of [src/backend/routes.js]

    The backend answers three analytic requests by sending Cypher text to a
    Neo4j session and reshaping the records in JavaScript:

    - [GET /root-cause]      (the specification's [selectRootCause]),
    - [GET /analyze-region]  (the specification's [rankRegion]),
    - [GET /critical]        (the specification's [rankGlobal]).

    This development embeds the stored graph, the Cypher clauses those three
    handlers use, and the JavaScript around them, and states the
    specification's properties over that embedding.

    Conventions of the embedding, fixed once and used everywhere:

    - a store lists its nodes and its relationships in the order the engine
      scans them; a relationship holds its two end nodes, and two node values
      denote the same node exactly when their [nid] agree;
    - [MATCH] yields rows in scan order; a variable-length pattern is
      expanded depth first and never uses a relationship twice within one
      path (Cypher's relationship uniqueness), while a node may repeat;
    - [ORDER BY] is a stable sort, and nothing but the written sort key
      decides the order: rows with equal keys stay in their incoming order;
    - [DISTINCT] and grouping keep the first occurrence of every value;
    - a request parameter is [None] when the query string lacks it. *)

From Stdlib Require Import String Ascii List Arith Bool Lia PeanoNat.
From Stdlib Require Import Permutation Sorted DecimalString.
Import ListNotations.

Open Scope string_scope.
Open Scope list_scope.

(* ================================================================== *)
(** * Part I. Definitions                                              *)
(* ================================================================== *)

(** ** JavaScript helpers used by the handlers *)

Module Js.

(** [s.split(sep)] for a one-character separator. *)
Fixpoint split (sep : ascii) (s : string) : list string :=
  match s with
  | EmptyString => [EmptyString]
  | String c r =>
      if Ascii.eqb c sep then EmptyString :: split sep r
      else match split sep r with
           | [] => [String c EmptyString]
           | h :: t => String c h :: t
           end
  end.

(** [a.join(sep)]. *)
Definition join (sep : string) (a : list string) : string :=
  String.concat sep a.

(** A number inside a template literal: its decimal digits. *)
Definition numberToString (n : nat) : string :=
  NilEmpty.string_of_uint (Nat.to_uint n).

(** [!p] for a query-string parameter: absent or the empty string. *)
Definition falsy (p : option string) : bool :=
  match p with
  | None => true
  | Some v => String.eqb v ""
  end.

End Js.

(** ** The stored graph *)

Module Props.

(** The property map of an [InfrastructureUnit] node. *)
Record t : Type := mk {
  id : string;
  name : string;
  type : string;
  location : string;
  department : string;
  status : string
}.

End Props.

Record Node : Type := mkNode {
  nid : nat;                 (* the engine's identity of the node *)
  labels : list string;
  properties : Props.t
}.

Record Rel : Type := mkRel {
  startNode : Node;
  relType : string;
  endNode : Node
}.

Record Store : Type := mkStore {
  nodes : list Node;         (* in scan order *)
  rels : list Rel            (* in scan order *)
}.

(** ** The Cypher clauses the handlers use *)

Module Cypher.

(** [x IN $list]. *)
Definition IN (x : string) (l : list string) : bool :=
  existsb (String.eqb x) l.

Definition hasLabel (l : string) (n : Node) : bool :=
  existsb (String.eqb l) (labels n).

(** [MATCH (n:InfrastructureUnit) WHERE p n]. *)
Definition matchUnits (s : Store) (p : Node -> bool) : list Node :=
  filter (fun n => hasLabel "InfrastructureUnit" n && p n) (nodes s).

(** The relationships a [[:DEPENDS_ON]] step may follow. *)
Definition dependsOn (s : Store) : list Rel :=
  filter (fun r => String.eqb (relType r) "DEPENDS_ON") (rels s).

(** Every element of a list together with the others. *)
Fixpoint picks {A : Type} (l : list A) : list (A * list A) :=
  match l with
  | [] => []
  | x :: t => (x, t) :: map (fun p => (fst p, x :: snd p)) (picks t)
  end.

(** [(dependent)-[:DEPENDS_ON*]->(target)]: one row per path, holding the
    path's first node and its length.  The expansion walks backwards from
    [target]; [avail] are the relationships the path has not used yet and
    [len] the length reached so far.  [fuel] bounds the recursion depth; a
    path cannot be longer than [avail]. *)
Fixpoint expandInto (fuel : nat) (avail : list Rel) (target : nat) (len : nat)
  : list (Node * nat) :=
  match fuel with
  | O => []
  | S fuel' =>
      flat_map
        (fun p =>
           let r := fst p in
           if Nat.eqb (nid (endNode r)) target
           then (startNode r, S len)
                  :: expandInto fuel' (snd p) (nid (startNode r)) (S len)
           else [])
        (picks avail)
  end.

(** [MATCH path = (dependent)-[:DEPENDS_ON*]->(root)], rows
    [(dependent, LENGTH(path))]. *)
Definition varLength (s : Store) (root : Node) : list (Node * nat) :=
  expandInto (length (dependsOn s)) (dependsOn s) (nid root) 0.

(** [OPTIONAL MATCH]: a single null row when the pattern has no match. *)
Definition optionalMatch {A : Type} (rows : list A) : list (option A) :=
  match rows with
  | [] => [None]
  | _ => map Some rows
  end.

Definition nonNull {A : Type} (l : list (option A)) : list A :=
  flat_map (fun o => match o with Some a => [a] | None => [] end) l.

(** [DISTINCT] over nodes: first occurrences, nodes compared by identity.
    [seen] are the identities already produced. *)
Fixpoint distinctFrom (seen : list nat) (l : list Node) : list Node :=
  match l with
  | [] => []
  | n :: t =>
      if existsb (Nat.eqb (nid n)) seen then distinctFrom seen t
      else n :: distinctFrom (nid n :: seen) t
  end.

Definition distinct (l : list Node) : list Node := distinctFrom [] l.

(** [COUNT(DISTINCT dependent)]: nulls are not counted. *)
Definition countDistinct (l : list (option Node)) : nat :=
  length (distinct (nonNull l)).

(** [ORDER BY]: stable insertion sort; [le a b] says that [a] may stand
    before [b]. *)
Fixpoint insertBy {A : Type} (le : A -> A -> bool) (x : A) (l : list A)
  : list A :=
  match l with
  | [] => [x]
  | y :: t => if le x y then x :: y :: t else y :: insertBy le x t
  end.

Fixpoint sortBy {A : Type} (le : A -> A -> bool) (l : list A) : list A :=
  match l with
  | [] => []
  | x :: t => insertBy le x (sortBy le t)
  end.

Definition orderByAsc {A : Type} (key : A -> nat) : list A -> list A :=
  sortBy (fun a b => Nat.leb (key a) (key b)).

Definition orderByDesc {A : Type} (key : A -> nat) : list A -> list A :=
  sortBy (fun a b => Nat.leb (key b) (key a)).

(** [LIMIT n]. *)
Definition limit {A : Type} (n : nat) (l : list A) : list A := firstn n l.

(** [DISTINCT] over strings, first occurrences. *)
Fixpoint distinctNames (seen : list string) (l : list string) : list string :=
  match l with
  | [] => []
  | x :: t =>
      if IN x seen then distinctNames seen t
      else x :: distinctNames (x :: seen) t
  end.

(** [RETURN key, COUNT(x)]: one row per distinct key, with the number of
    incoming rows that carry it. *)
Definition groupCount (keys : list string) : list (string * nat) :=
  map (fun k => (k, length (filter (String.eqb k) keys)))
      (distinctNames [] keys).

End Cypher.

(** ** The route handlers of [src/backend/routes.js] *)

Module Routes.

Import Cypher.

Record ErrorBody : Type := mkError {
  error : string;
  details : option string
}.

(** What a handler sends: [res.json(body)] or
    [res.status(code).json(errorBody)]. *)
Inductive Response (A : Type) : Type :=
| Json (body : A)
| Status (code : nat) (body : ErrorBody).

Arguments Json {A} body.
Arguments Status {A} code body.

(** The value of a parameter that passed the [!p] test. *)
Definition paramValue (p : option string) : string :=
  match p with
  | Some v => v
  | None => ""
  end.

(** [OPTIONAL MATCH (dependent)-[:DEPENDS_ON*]->(root)
     WITH root, COUNT(DISTINCT dependent) as dependentCount]. *)
Definition countDependents (s : Store) (root : Node) : nat :=
  countDistinct (optionalMatch (map fst (varLength s root))).

(** *** [GET /root-cause] *)

Record RootCauseBody : Type := mkRootCause {
  rootCause : Props.t;
  impactChain : list Props.t;
  affectedServices : nat;
  criticalPath : list string
}.

(** The units the first query ranks:
    [MATCH (root:InfrastructureUnit)
     WHERE root.type = $type AND root.location IN $locations]. *)
Definition candidates (s : Store) (type : string) (locations : list string)
  : list Node :=
  matchUnits s
    (fun root =>
       String.eqb (Props.type (properties root)) type
       && IN (Props.location (properties root)) locations).

(** [... RETURN root, dependentCount ORDER BY dependentCount DESC LIMIT 1]. *)
Definition rootResult (s : Store) (type : string) (locations : list string)
  : list (Node * nat) :=
  limit 1
    (orderByDesc snd
       (map (fun root => (root, countDependents s root))
            (candidates s type locations))).

(** [MATCH (root:InfrastructureUnit {id: $rootId})
     MATCH path = (dependent)-[:DEPENDS_ON*]->(root)
     WITH dependent, LENGTH(path) as depth]. *)
Definition impactRows (s : Store) (rootId : string) : list (Node * nat) :=
  flat_map (varLength s)
    (matchUnits s
       (fun root => String.eqb (Props.id (properties root)) rootId)).

(** [... ORDER BY depth ASC RETURN DISTINCT dependent LIMIT 10]. *)
Definition impactResult (s : Store) (rootId : string) : list Node :=
  limit 10 (distinct (map fst (orderByAsc snd (impactRows s rootId)))).

Definition missingParameter {A : Type} : Response A :=
  Status 400
    {| error := "Missing type or locations parameter"; details := None |}.

Definition noInfrastructure {A : Type} (type : string)
  (locationArray : list string) : Response A :=
  Status 404
    {| error := "No infrastructure found";
       details :=
         Some ("No " ++ type
               ++ " infrastructure found in the selected region. Available locations: "
               ++ Js.join ", " locationArray)%string |}.

Definition getRootCause (s : Store) (type locations : option string)
  : Response RootCauseBody :=
  if Js.falsy type || Js.falsy locations then missingParameter
  else
    let type := paramValue type in
    let locationArray := Js.split "," (paramValue locations) in
    match rootResult s type locationArray with
    | [] => noInfrastructure type locationArray
    | record :: _ =>
        let rootNode := properties (fst record) in
        let affectedCount := snd record in
        let impactChain :=
          map properties (impactResult s (Props.id rootNode)) in
        Json {| rootCause := rootNode;
                impactChain := impactChain;
                affectedServices := affectedCount;
                criticalPath := map Props.name impactChain |}
    end.

(** *** [GET /analyze-region] *)

(** [{...r.get('n').properties, dependentCount}]. *)
Record CriticalUnit : Type := mkCriticalUnit {
  props : Props.t;
  dependentCount : nat
}.

Record RegionBody : Type := mkRegion {
  region : option string;
  criticalUnits : list CriticalUnit;
  vulnerabilities : list string;
  totalUnits : nat
}.

(** [MATCH (n:InfrastructureUnit) WHERE n.location IN $locations]. *)
Definition inRegion (s : Store) (locations : list string) : list Node :=
  matchUnits s (fun n => IN (Props.location (properties n)) locations).

(** [... WITH n, COUNT(DISTINCT dependent) as dependentCount
     WHERE dependentCount > 0 RETURN n, dependentCount
     ORDER BY dependentCount DESC LIMIT 5]. *)
Definition criticalResult (s : Store) (locations : list string)
  : list (Node * nat) :=
  limit 5
    (orderByDesc snd
       (filter (fun row => Nat.ltb 0 (snd row))
          (map (fun n => (n, countDependents s n)) (inRegion s locations)))).

(** [... RETURN COUNT(n) as total]. *)
Definition totalResult (s : Store) (locations : list string) : nat :=
  length (inRegion s locations).

Definition analysisFailed {A : Type} (message : string) : Response A :=
  Status 500 {| error := "Analysis failed"; details := Some message |}.

Definition getAnalyzeRegion (s : Store) (region locations : option string)
  : Response RegionBody :=
  match locations with
  | None =>
      (* [locations.split] on [undefined] throws inside the [try] *)
      analysisFailed "Cannot read properties of undefined (reading 'split')"
  | Some locations =>
      let locationArray := Js.split "," locations in
      let criticalUnits :=
        map (fun r => {| props := properties (fst r);
                         dependentCount := snd r |})
            (criticalResult s locationArray) in
      let totalUnits := totalResult s locationArray in
      let vulnerabilities :=
        match criticalUnits with
        | [] => []
        | top :: _ =>
            [ (Js.numberToString (length criticalUnits)
               ++ " critical infrastructure units identified")%string;
              ("Single point of failure risk in "
               ++ Props.name (props top))%string ]
        end in
      Json {| region := region;
              criticalUnits := criticalUnits;
              vulnerabilities := vulnerabilities;
              totalUnits := totalUnits |}
  end.

(** *** [GET /critical] *)

Record CriticalRow : Type := mkCriticalRow {
  name : string;
  dependencyCount : nat
}.

(** [MATCH (n:InfrastructureUnit)<-[:DEPENDS_ON]-(x)], rows [(n, x)]. *)
Definition matchIncoming (s : Store) : list (Node * Node) :=
  flat_map
    (fun n =>
       map (fun r => (n, startNode r))
           (filter (fun r => Nat.eqb (nid (endNode r)) (nid n))
                   (dependsOn s)))
    (matchUnits s (fun _ => true)).

(** [RETURN n.name AS name, COUNT(x) AS dependencyCount
     ORDER BY dependencyCount DESC]. *)
Definition getCritical (s : Store) : list CriticalRow :=
  map (fun r => {| name := fst r; dependencyCount := snd r |})
      (orderByDesc snd
         (groupCount
            (map (fun row => Props.name (properties (fst row)))
                 (matchIncoming s)))).

End Routes.

(** ** Notions the properties are stated with *)

Module Reach.

Import Cypher.

(** [walk E target start w]: [w] is a non-empty chain of relationships of
    [E] leading from node [start] to node [target]; [w] lists the chain
    from its last relationship (the one entering [target]) back to its
    first.  A walk may repeat relationships and nodes. *)
Inductive walk (E : list Rel) : nat -> nat -> list Rel -> Prop :=
| walk_last : forall r,
    In r E -> walk E (nid (endNode r)) (nid (startNode r)) [r]
| walk_step : forall r start w,
    In r E -> walk E (nid (startNode r)) start w ->
    walk E (nid (endNode r)) start (r :: w).

(** Node [d] transitively depends on node [r]: some chain of [DEPENDS_ON]
    relationships leads from [d] to [r]. *)
Definition dependsTransitively (s : Store) (d r : nat) : Prop :=
  exists w, walk (dependsOn s) r d w.

(** The same, with the number of hops. *)
Definition pathOfLength (s : Store) (d r : nat) (n : nat) : Prop :=
  exists w, walk (dependsOn s) r d w /\ length w = n.

(** The distinct nodes bound to [dependent] by
    [(dependent)-[:DEPENDS_ON*]->(root)]. *)
Definition dependents (s : Store) (root : Node) : list Node :=
  distinct (map fst (varLength s root)).

(** The dependents in the order the second query of [GET /root-cause]
    ranks them, before [LIMIT]. *)
Definition ranked (s : Store) (root : Node) : list Node :=
  distinct (map fst (orderByAsc snd (varLength s root))).

(** [m] is the least number of hops from [d] to [r]. *)
Definition minDepth (s : Store) (d r : nat) (m : nat) : Prop :=
  pathOfLength s d r m /\ forall n, pathOfLength s d r n -> m <= n.

(** The [DEPENDS_ON] relationships that enter a node. *)
Definition incoming (s : Store) (n : Node) : list Rel :=
  filter (fun r => Nat.eqb (nid (endNode r)) (nid n)) (dependsOn s).

(** The names the grouping sees: one per unit and entering relationship. *)
Definition incomingNames (s : Store) : list string :=
  map (fun row => Props.name (properties (fst row))) (Routes.matchIncoming s).

(** Two stores hold the same snapshot when they hold the same nodes and
    the same relationships, in whatever scan order. *)
Definition sameSnapshot (s1 s2 : Store) : Prop :=
  Permutation (nodes s1) (nodes s2) /\ Permutation (rels s1) (rels s2).

(** The body [GET /root-cause] sends once [root] is selected. *)
Definition bodyFor (s : Store) (root : Node) : Routes.RootCauseBody :=
  {| Routes.rootCause := properties root;
     Routes.impactChain :=
       map properties (Routes.impactResult s (Props.id (properties root)));
     Routes.affectedServices := Routes.countDependents s root;
     Routes.criticalPath :=
       map Props.name
           (map properties (Routes.impactResult s (Props.id (properties root)))) |}.


(** Unit ids are unique (the data model's identity). *)
Fixpoint noDupStrings (l : list string) : bool :=
  match l with
  | [] => true
  | x :: t => negb (IN x t) && noDupStrings t
  end.

Definition uniqueIds (s : Store) : bool :=
  noDupStrings
    (map (fun n => Props.id (properties n))
         (matchUnits s (fun _ => true))).

End Reach.

(** ** Concrete stores *)

Module Examples.

Definition unitNode (i : nat) (id name type location : string) : Node :=
  {| nid := i;
     labels := ["InfrastructureUnit"];
     properties :=
       {| Props.id := id; Props.name := name; Props.type := type;
          Props.location := location; Props.department := "city";
          Props.status := "operational" |} |}.

Definition dep (a b : Node) : Rel :=
  {| startNode := a; relType := "DEPENDS_ON"; endNode := b |}.

(** Scenario 1 of the specification: S1 and P2 both depend on P1. *)
Definition P1 : Node := unitNode 1 "P1" "Plant 1" "power" "north".
Definition P2 : Node := unitNode 2 "P2" "Plant 2" "power" "north".
Definition S1 : Node := unitNode 3 "S1" "Switch 1" "telecom" "north".

Definition scenario1 : Store :=
  {| nodes := [P1; P2; S1]; rels := [dep S1 P1; dep P2 P1] |}.

(** Two power units without dependents, the one with the larger id stored
    first. *)
Definition twoPlants : Store :=
  {| nodes := [P2; P1]; rels := [] |}.

(** The same two units stored in the other order. *)
Definition twoPlantsSwapped : Store :=
  {| nodes := [P1; P2]; rels := [] |}.

(** Scenario 4 of the specification: the cycle A -> B -> C -> A and an
    outside unit D -> A. *)
Definition unitA : Node := unitNode 1 "A" "Unit A" "power" "north".
Definition unitB : Node := unitNode 2 "B" "Unit B" "water" "north".
Definition unitC : Node := unitNode 3 "C" "Unit C" "telecom" "north".
Definition unitD : Node := unitNode 4 "D" "Unit D" "transport" "north".

Definition scenario4 : Store :=
  {| nodes := [unitA; unitB; unitC; unitD];
     rels := [dep unitA unitB; dep unitB unitC; dep unitC unitA;
              dep unitD unitA] |}.

(** Scenario 3 of the specification: six units of one region, two of them
    (U5 and U6) without dependents. *)
Definition U (i : nat) (id : string) : Node :=
  unitNode i id id "water" "north".

Definition scenario3 : Store :=
  {| nodes := [U 1 "U1"; U 2 "U2"; U 3 "U3"; U 4 "U4"; U 5 "U5"; U 6 "U6"];
     rels := [dep (U 2 "U2") (U 1 "U1"); dep (U 3 "U3") (U 2 "U2");
              dep (U 4 "U4") (U 3 "U3"); dep (U 5 "U5") (U 4 "U4")] |}.

(** Two units that share a name, each with one direct dependent. *)
Definition pumpA : Node := unitNode 1 "W1" "Pump" "water" "north".
Definition pumpB : Node := unitNode 2 "W2" "Pump" "water" "south".

Definition sameName : Store :=
  {| nodes := [pumpA; pumpB; S1];
     rels := [dep S1 pumpA; dep S1 pumpB] |}.

End Examples.

(** ** [GET /infrastructure] *)

Module Network.

Import Cypher.

(** [{ from: n.properties, to: m.properties, relationship: r.type }]. *)
Record Link : Type := mkLink {
  from : Props.t;
  to : Props.t;
  relationship : string
}.

(** [MATCH (n)-[r:DEPENDS_ON]->(m) RETURN n, r, m], one record per
    relationship, reshaped by [result.records.map]. *)
Definition getInfrastructure (s : Store) : list Link :=
  map (fun r => {| from := properties (startNode r);
                   to := properties (endNode r);
                   relationship := relType r |})
      (dependsOn s).

(** What the engine guarantees of a stored graph: node identities are
    unique, and a relationship ends in a node of the store. *)
Definition wellFormed (s : Store) : Prop :=
  NoDup (map nid (nodes s))
  /\ forall r, In r (rels s) ->
       In (startNode r) (nodes s) /\ In (endNode r) (nodes s).

(** Every node that something depends on is an [InfrastructureUnit]. *)
Definition targetsAreUnits (s : Store) : Prop :=
  forall r, In r (dependsOn s) ->
    hasLabel "InfrastructureUnit" (endNode r) = true.

(** [str.includes(ch)] for one character. *)
Fixpoint hasChar (c : ascii) (str : string) : bool :=
  match str with
  | EmptyString => false
  | String d r => Ascii.eqb d c || hasChar c r
  end.

(** How often a character occurs in a string. *)
Fixpoint countChar (c : ascii) (str : string) : nat :=
  match str with
  | EmptyString => 0
  | String d r => (if Ascii.eqb d c then 1 else 0) + countChar c r
  end.

End Network.

(** ** The analysis page, [src/src/pages/Analysis.tsx] *)

Module Analysis.

Record Region : Type := mkRegion {
  id : string;
  name : string;
  icon : string;
  locations : list string
}.

(** [problemTypes], without the icon components: id and name. *)
Definition problemTypes : list (string * string) :=
  [ ("power", "Power Outage"); ("water", "Water Shortage");
    ("telecom", "Network Failure"); ("transport", "Transport Disruption") ].

(** [s.includes(kw)]. *)
Fixpoint includes (s kw : string) : bool :=
  String.prefix kw s
  || match s with
     | EmptyString => false
     | String _ r => includes r kw
     end.

Definition northKeywords : list string :=
  ["ennore"; "basin bridge"; "red hills"; "minjur"; "north"].
Definition centralKeywords : list string :=
  ["anna nagar"; "kilpauk"; "mount road"; "t nagar"; "central"].
Definition southKeywords : list string :=
  ["adyar"; "taramani"; "velachery"; "neelankarai"; "beach"].
Definition itKeywords : list string :=
  ["omr"; "old mahabalipuram"; "guindy"; "tambaram"; "koyambedu"].

(** The five arrays [groupLocationsByRegion] fills. *)
Record Buckets : Type := mkBuckets {
  north : list string;
  central : list string;
  south : list string;
  itCorridor : list string;
  other : list string
}.

(** The five areas, in the order their regions are generated, and the id
    each region gets. *)
Inductive Area : Type := North | Central | South | ItCorridor | Other.

Definition areaId (a : Area) : string :=
  match a with
  | North => "north"
  | Central => "central"
  | South => "south"
  | ItCorridor => "it-corridor"
  | Other => "other"
  end.

Definition areaName (a : Area) : string :=
  match a with
  | North => "North Chennai"
  | Central => "Central Chennai"
  | South => "South Chennai"
  | ItCorridor => "IT Corridor"
  | Other => "Other Areas"
  end.

Definition areaIcon (a : Area) : string :=
  match a with
  | North => "🏭"
  | Central => "🏛️"
  | South => "🏖️"
  | ItCorridor => "💻"
  | Other => "📍"
  end.

Definition allAreas : list Area := [North; Central; South; ItCorridor; Other].

Definition sameArea (a b : Area) : bool :=
  match a, b with
  | North, North | Central, Central | South, South
  | ItCorridor, ItCorridor | Other, Other => true
  | _, _ => false
  end.

(** What the page shows after an analysis. *)
Record RootCauseAnalysis : Type := mkAnalysis {
  problem : string;
  region : string;
  rootCause : option Props.t;     (* [None]: [data.rootCause] undefined *)
  impactChain : list Props.t;
  affectedServices : nat;
  criticalPath : list string
}.

(** The component's state (without [loading]). *)
Record State : Type := mkState {
  regions : list Region;
  selectedProblem : option string;
  selectedRegion : option string;
  isAnalyzing : bool;
  result : option RootCauseAnalysis;
  error : option string
}.

(** How [await fetch(url)] ends: it throws ([Some m] for an [Error] with
    message [m], [None] for any other thrown value) or the backend's answer
    arrives. *)
Inductive FetchOutcome : Type :=
| Rejected (message : option string)
| Responded (answer : Routes.Response Routes.RootCauseBody).

(** [[...new Set(a)]]: the values of [a] in order of first occurrence. *)
Definition uniqueValues (a : list string) : list string :=
  Cypher.distinctNames [] a.

(** [a || b] on strings that may be undefined: the first non-empty one. *)
Definition orElse (a : option string) (b : string) : string :=
  match a with
  | Some v => if String.eqb v "" then b else v
  | None => b
  end.

(** [res.ok]. *)
Definition ok (status : nat) : bool :=
  Nat.leb 200 status && Nat.leb status 299.

Definition setIsAnalyzing (b : bool) (st : State) : State :=
  {| regions := regions st; selectedProblem := selectedProblem st;
     selectedRegion := selectedRegion st; isAnalyzing := b;
     result := result st; error := error st |}.

Definition setResult (r : option RootCauseAnalysis) (st : State) : State :=
  {| regions := regions st; selectedProblem := selectedProblem st;
     selectedRegion := selectedRegion st; isAnalyzing := isAnalyzing st;
     result := r; error := error st |}.

Definition setError (e : option string) (st : State) : State :=
  {| regions := regions st; selectedProblem := selectedProblem st;
     selectedRegion := selectedRegion st; isAnalyzing := isAnalyzing st;
     result := result st; error := e |}.

Definition clearAnalysis (st : State) : State :=
  {| regions := regions st; selectedProblem := None;
     selectedRegion := None; isAnalyzing := isAnalyzing st;
     result := None; error := None |}.

(** [selectedProblem && selectedRegion && !isAnalyzing]. *)
Definition canAnalyze (st : State) : bool :=
  negb (Js.falsy (selectedProblem st))
  && negb (Js.falsy (selectedRegion st))
  && negb (isAnalyzing st).

Section Page.

(** JavaScript built-ins the page calls. *)
Variable toLowerCase : string -> string.
Variable encodeURIComponent : string -> string.
(** The network: what [fetch] does with a URL. *)
Variable fetch : string -> FetchOutcome.

Definition someIncludes (keywords : list string) (lowerLoc : string) : bool :=
  existsb (fun kw => includes lowerLoc kw) keywords.

(** The body of [locations.forEach]. *)
Definition pushLocation (b : Buckets) (loc : string) : Buckets :=
  let lowerLoc := toLowerCase loc in
  if someIncludes northKeywords lowerLoc then
    {| north := north b ++ [loc]; central := central b; south := south b;
       itCorridor := itCorridor b; other := other b |}
  else if someIncludes centralKeywords lowerLoc then
    {| north := north b; central := central b ++ [loc]; south := south b;
       itCorridor := itCorridor b; other := other b |}
  else if someIncludes southKeywords lowerLoc then
    {| north := north b; central := central b; south := south b ++ [loc];
       itCorridor := itCorridor b; other := other b |}
  else if someIncludes itKeywords lowerLoc then
    {| north := north b; central := central b; south := south b;
       itCorridor := itCorridor b ++ [loc]; other := other b |}
  else
    {| north := north b; central := central b; south := south b;
       itCorridor := itCorridor b; other := other b ++ [loc] |}.

(** The array a location is pushed to, read off the [if] chain: the first
    keyword group with a keyword that the lower-cased location includes. *)
Definition areaOf (loc : string) : Area :=
  let lowerLoc := toLowerCase loc in
  if someIncludes northKeywords lowerLoc then North
  else if someIncludes centralKeywords lowerLoc then Central
  else if someIncludes southKeywords lowerLoc then South
  else if someIncludes itKeywords lowerLoc then ItCorridor
  else Other.

(** [if (locs.length > 0) generatedRegions.push({...})]. *)
Definition pushRegion (generatedRegions : list Region)
  (id name icon : string) (locs : list string) : list Region :=
  if Nat.ltb 0 (length locs)
  then generatedRegions
         ++ [ {| id := id; name := name; icon := icon; locations := locs |} ]
  else generatedRegions.

Definition groupLocationsByRegion (locations : list string) : list Region :=
  let b :=
    fold_left pushLocation locations
      {| north := []; central := []; south := []; itCorridor := [];
         other := [] |} in
  let generatedRegions := [] in
  let generatedRegions :=
    pushRegion generatedRegions "north" "North Chennai" "🏭" (north b) in
  let generatedRegions :=
    pushRegion generatedRegions "central" "Central Chennai" "🏛️"
               (central b) in
  let generatedRegions :=
    pushRegion generatedRegions "south" "South Chennai" "🏖️" (south b) in
  let generatedRegions :=
    pushRegion generatedRegions "it-corridor" "IT Corridor" "💻"
               (itCorridor b) in
  let generatedRegions :=
    pushRegion generatedRegions "other" "Other Areas" "📍" (other b) in
  generatedRegions.

(** [[...new Set(graph.nodes.map(n => n.location))]] followed by
    [groupLocationsByRegion]; the argument lists the locations of the
    graph's nodes. *)
Definition regionsOf (nodeLocations : list string) : list Region :=
  groupLocationsByRegion (uniqueValues nodeLocations).

Definition rootCauseUrl (type locations : string) : string :=
  ("http://localhost:4000/api/root-cause?type=" ++ encodeURIComponent type
   ++ "&locations=" ++ encodeURIComponent locations)%string.

(** [problem?.name || selectedProblem]. *)
Definition problemName (selectedProblem : string) : string :=
  orElse
    (option_map snd
       (find (fun p => String.eqb (fst p) selectedProblem) problemTypes))
    selectedProblem.

(** The [try] block once the answer is there. *)
Definition receive (selectedProblem : string) (region : Region)
  (outcome : FetchOutcome) (st : State) : State :=
  match outcome with
  | Rejected message =>
      setError
        (Some match message with
              | Some m => m
              | None => "Analysis failed. Please try again."
              end) st
  | Responded (Routes.Json data) =>
      setResult
        (Some {| problem := problemName selectedProblem;
                 region := name region;
                 rootCause := Some (Routes.rootCause data);
                 impactChain := Routes.impactChain data;
                 affectedServices := Routes.affectedServices data;
                 criticalPath := Routes.criticalPath data |}) st
  | Responded (Routes.Status status errorData) =>
      if ok status then
        (* a 2xx answer without the result fields *)
        setResult
          (Some {| problem := problemName selectedProblem;
                   region := name region;
                   rootCause := None;
                   impactChain := [];
                   affectedServices := 0;
                   criticalPath := [] |}) st
      else
        setError
          (Some (orElse (Routes.details errorData)
                   (orElse (Some (Routes.error errorData))
                      ("API returned " ++ Js.numberToString status)%string)))
          st
  end.

(** [analyzeRootCause], from the click to the end of [finally]. *)
Definition analyzeRootCause (st : State) : State :=
  if Js.falsy (selectedProblem st) || Js.falsy (selectedRegion st) then st
  else
    let problemId := Routes.paramValue (selectedProblem st) in
    match find (fun r => String.eqb (id r)
                           (Routes.paramValue (selectedRegion st)))
               (regions st) with
    | None => st
    | Some region =>
        let st := setError None (setResult None (setIsAnalyzing true st)) in
        let locations := Js.join "," (locations region) in
        let url := rootCauseUrl problemId locations in
        setIsAnalyzing false (receive problemId region (fetch url) st)
    end.

End Page.

End Analysis.

(* ================================================================== *)
(** * Part II. Facts about the clauses                                 *)
(* ================================================================== *)

(** ** [ORDER BY] *)

Section Sorting.

Context {A : Type}.
Variable le : A -> A -> bool.

Lemma insertBy_perm (x : A) (l : list A) :
  Permutation (Cypher.insertBy le x l) (x :: l).
Proof.
  induction l as [|y t IH]; simpl.
  - apply Permutation_refl.
  - destruct (le x y).
    + apply Permutation_refl.
    + eapply Permutation_trans.
      * apply perm_skip, IH.
      * apply perm_swap.
Qed.

Lemma sortBy_perm (l : list A) : Permutation (Cypher.sortBy le l) l.
Proof.
  induction l as [|x t IH]; simpl.
  - constructor.
  - eapply Permutation_trans; [apply insertBy_perm|].
    now apply perm_skip.
Qed.

Lemma sortBy_In (l : list A) (x : A) : In x (Cypher.sortBy le l) <-> In x l.
Proof.
  split; apply Permutation_in;
    [apply sortBy_perm | apply Permutation_sym, sortBy_perm].
Qed.

Lemma sortBy_length (l : list A) : length (Cypher.sortBy le l) = length l.
Proof. apply Permutation_length, sortBy_perm. Qed.

Hypothesis le_total : forall a b, le a b = false -> le b a = true.
Hypothesis le_trans :
  forall a b c, le a b = true -> le b c = true -> le a c = true.

Lemma insertBy_sorted (x : A) (l : list A) :
  StronglySorted (fun a b => le a b = true) l ->
  StronglySorted (fun a b => le a b = true) (Cypher.insertBy le x l).
Proof.
  induction 1 as [|y t Hs IH Hy]; simpl.
  - constructor; constructor.
  - destruct (le x y) eqn:E.
    + constructor.
      * constructor; assumption.
      * constructor; [assumption|].
        rewrite Forall_forall in *. intros z Hz.
        eapply le_trans; [exact E | now apply Hy].
    + constructor; [assumption|].
      rewrite Forall_forall in *. intros z Hz.
      apply (Permutation_in _ (insertBy_perm x t)) in Hz.
      destruct Hz as [<-|Hz]; [now apply le_total | now apply Hy].
Qed.

Lemma sortBy_sorted (l : list A) :
  StronglySorted (fun a b => le a b = true) (Cypher.sortBy le l).
Proof.
  induction l as [|x t IH]; simpl.
  - constructor.
  - now apply insertBy_sorted.
Qed.

End Sorting.

Lemma StronglySorted_weaken {A : Type} (R S : A -> A -> Prop) (l : list A) :
  (forall a b, R a b -> S a b) -> StronglySorted R l -> StronglySorted S l.
Proof.
  intros HRS. induction 1 as [|x t Hs IH Hx]; constructor.
  - assumption.
  - eapply Forall_impl; [|exact Hx]. intros b. apply HRS.
Qed.

Lemma StronglySorted_firstn {A : Type} (R : A -> A -> Prop) (n : nat)
  (l : list A) : StronglySorted R l -> StronglySorted R (firstn n l).
Proof.
  intros H. revert n. induction H as [|x t Hs IH Hx]; intros [|n]; simpl;
    try constructor.
  - apply IH.
  - rewrite Forall_forall in *. intros y Hy. apply Hx.
    rewrite <- (firstn_skipn n t). apply in_or_app. now left.
Qed.

Section OrderByKey.

Context {A : Type}.
Variable key : A -> nat.

Lemma orderByDesc_sorted (l : list A) :
  StronglySorted (fun a b => key b <= key a) (Cypher.orderByDesc key l).
Proof.
  unfold Cypher.orderByDesc.
  eapply StronglySorted_weaken; [|apply sortBy_sorted].
  - intros a b H. now apply Nat.leb_le in H.
  - intros a b H. apply Nat.leb_gt in H. apply Nat.leb_le. lia.
  - intros a b c H1 H2. apply Nat.leb_le in H1, H2. apply Nat.leb_le. lia.
Qed.

Lemma orderByAsc_sorted (l : list A) :
  StronglySorted (fun a b => key a <= key b) (Cypher.orderByAsc key l).
Proof.
  unfold Cypher.orderByAsc.
  eapply StronglySorted_weaken; [|apply sortBy_sorted].
  - intros a b H. now apply Nat.leb_le in H.
  - intros a b H. apply Nat.leb_gt in H. apply Nat.leb_le. lia.
  - intros a b c H1 H2. apply Nat.leb_le in H1, H2. apply Nat.leb_le. lia.
Qed.

(** The first row of a descending sort is the earliest row whose key is
    maximal. *)
Lemma orderByDesc_head (l : list A) (x : A) (rest : list A) :
  Cypher.orderByDesc key l = x :: rest ->
  exists l1 l2,
    l = l1 ++ x :: l2
    /\ (forall y, In y l1 -> key y < key x)
    /\ (forall y, In y l2 -> key y <= key x).
Proof.
  unfold Cypher.orderByDesc. revert x rest.
  induction l as [|a t IH]; intros x rest H; simpl in H; [discriminate|].
  destruct (Cypher.sortBy _ t) as [|h r] eqn:E; simpl in H.
  - injection H as <- <-.
    assert (t = []) as ->.
    { apply length_zero_iff_nil.
      rewrite <- (sortBy_length (fun a b => Nat.leb (key b) (key a)) t), E.
      reflexivity. }
    exists [], []. repeat split; intros y [].
  - destruct (IH h r eq_refl) as (t1 & t2 & -> & H1 & H2).
    destruct (Nat.leb (key h) (key a)) eqn:L.
    + injection H as <- <-. apply Nat.leb_le in L.
      exists [], (t1 ++ h :: t2). repeat split.
      * intros y [].
      * intros y Hy. apply in_app_or in Hy.
        destruct Hy as [Hy|[<-|Hy]].
        -- specialize (H1 y Hy). lia.
        -- assumption.
        -- specialize (H2 y Hy). lia.
    + injection H as <- <-. apply Nat.leb_gt in L.
      exists (a :: t1), t2. repeat split.
      * intros y [<-|Hy]; [assumption | now apply H1].
      * assumption.
Qed.

(** Stability: the rows of one key keep their incoming order. *)
Lemma insertBy_asc_filter (k : nat) (x : A) (l : list A) :
  filter (fun y => Nat.eqb (key y) k)
    (Cypher.insertBy (fun a b => Nat.leb (key a) (key b)) x l)
  = filter (fun y => Nat.eqb (key y) k) (x :: l).
Proof.
  induction l as [|y t IH]; [reflexivity|].
  cbn [Cypher.insertBy].
  destruct (Nat.leb (key x) (key y)) eqn:L; [reflexivity|].
  apply Nat.leb_gt in L.
  cbn [filter] in *. rewrite IH.
  destruct (Nat.eqb (key x) k) eqn:Ex, (Nat.eqb (key y) k) eqn:Ey;
    try reflexivity.
  apply Nat.eqb_eq in Ex, Ey. lia.
Qed.

Lemma orderByAsc_stable (k : nat) (l : list A) :
  filter (fun y => Nat.eqb (key y) k) (Cypher.orderByAsc key l)
  = filter (fun y => Nat.eqb (key y) k) l.
Proof.
  unfold Cypher.orderByAsc.
  induction l as [|x t IH]; [reflexivity|].
  cbn [Cypher.sortBy]. rewrite insertBy_asc_filter.
  cbn [filter]. now rewrite IH.
Qed.

End OrderByKey.

(** ** [DISTINCT] *)

Section Distinct.

Import Cypher.

Lemma existsb_nat_In (i : nat) (seen : list nat) :
  existsb (Nat.eqb i) seen = true <-> In i seen.
Proof.
  rewrite existsb_exists. split.
  - intros (j & Hj & E). apply Nat.eqb_eq in E. now subst.
  - intros H. exists i. split; [assumption | apply Nat.eqb_refl].
Qed.

Lemma distinctFrom_In (seen : list nat) (l : list Node) (n : Node) :
  In n (distinctFrom seen l) -> In n l /\ ~ In (nid n) seen.
Proof.
  revert seen. induction l as [|m t IH]; intros seen H; simpl in *.
  - contradiction.
  - destruct (existsb (Nat.eqb (nid m)) seen) eqn:E.
    + destruct (IH _ H). auto.
    + destruct H as [<-|H].
      * split; [now left|]. intros Hin.
        apply existsb_nat_In in Hin. congruence.
      * destruct (IH _ H) as [H1 H2]. split; [now right|].
        intros Hin. apply H2. now right.
Qed.

Lemma distinctFrom_nid (seen : list nat) (l : list Node) (i : nat) :
  In i (map nid (distinctFrom seen l))
  <-> In i (map nid l) /\ ~ In i seen.
Proof.
  revert seen. induction l as [|m t IH]; intros seen; simpl.
  - tauto.
  - destruct (existsb (Nat.eqb (nid m)) seen) eqn:E.
    + rewrite IH. apply existsb_nat_In in E.
      split; [tauto|]. intros [[<-|H] Hs]; tauto.
    + assert (~ In (nid m) seen) as Hm.
      { intros Hin. apply existsb_nat_In in Hin. congruence. }
      simpl. rewrite IH. simpl.
      destruct (Nat.eq_dec (nid m) i) as [<-|Hne]; tauto.
Qed.

Lemma distinctFrom_NoDup (seen : list nat) (l : list Node) :
  NoDup (map nid (distinctFrom seen l)).
Proof.
  revert seen. induction l as [|m t IH]; intros seen; simpl.
  - constructor.
  - destruct (existsb (Nat.eqb (nid m)) seen); [apply IH|].
    simpl. constructor; [|apply IH].
    rewrite distinctFrom_nid. simpl. tauto.
Qed.

(** Where an element of the output comes from: its first occurrence in the
    input, with everything listed after it occurring only later. *)
Lemma distinctFrom_split (seen : list nat) (l p q : list Node) (a : Node) :
  distinctFrom seen l = p ++ a :: q ->
  exists l1 l2,
    l = l1 ++ a :: l2
    /\ ~ In (nid a) (map nid l1)
    /\ forall b, In b q -> ~ In (nid b) (map nid l1) /\ nid b <> nid a.
Proof.
  revert seen p. induction l as [|m t IH]; intros seen p H; simpl in H.
  - destruct p; discriminate.
  - destruct (existsb (Nat.eqb (nid m)) seen) eqn:E.
    + apply existsb_nat_In in E.
      assert (forall b, In b (p ++ a :: q) -> nid b <> nid m) as Hfresh.
      { intros b Hb. rewrite <- H in Hb.
        apply distinctFrom_In in Hb. destruct Hb as [_ Hb].
        intros Heq. apply Hb. now rewrite Heq. }
      destruct (IH _ _ H) as (l1 & l2 & -> & Ha & Hq).
      exists (m :: l1), l2. split; [reflexivity|]. split.
      * simpl. intros [Heq|Hin]; [|tauto].
        apply (Hfresh a); [apply in_or_app; right; now left | congruence].
      * intros b Hb. destruct (Hq b Hb) as [H1 H2]. split; [|assumption].
        simpl. intros [Heq|Hin]; [|tauto].
        apply (Hfresh b); [apply in_or_app; right; now right | congruence].
    + destruct p as [|p0 p']; simpl in H; injection H as <- H.
      * exists [], t. split; [reflexivity|]. split; [simpl; tauto|].
        intros b Hb. rewrite <- H in Hb.
        apply distinctFrom_In in Hb. destruct Hb as [_ Hb].
        split; [simpl; tauto|]. intros Heq. apply Hb. left. congruence.
      * assert (forall b, In b (p' ++ a :: q) -> nid b <> nid m) as Hfresh.
        { intros b Hb. rewrite <- H in Hb.
          apply distinctFrom_In in Hb. destruct Hb as [_ Hb].
          intros Heq. apply Hb. left. congruence. }
        destruct (IH _ _ H) as (l1 & l2 & -> & Ha & Hq).
        exists (m :: l1), l2. split; [reflexivity|]. split.
        -- simpl. intros [Heq|Hin]; [|tauto].
           apply (Hfresh a); [apply in_or_app; right; now left | congruence].
        -- intros b Hb. destruct (Hq b Hb) as [H1 H2]. split; [|assumption].
           simpl. intros [Heq|Hin]; [|tauto].
           apply (Hfresh b);
             [apply in_or_app; right; now right | congruence].
Qed.

Lemma distinct_same_length (l1 l2 : list Node) :
  (forall i, In i (map nid l1) <-> In i (map nid l2)) ->
  length (distinct l1) = length (distinct l2).
Proof.
  intros H. unfold distinct.
  rewrite <- (length_map nid (distinctFrom [] l1)).
  rewrite <- (length_map nid (distinctFrom [] l2)).
  apply Permutation_length, NoDup_Permutation;
    try apply distinctFrom_NoDup.
  intros i. rewrite !distinctFrom_nid. simpl. rewrite H. tauto.
Qed.

Lemma countDistinct_optionalMatch (l : list Node) :
  countDistinct (optionalMatch l) = length (distinct l).
Proof.
  unfold countDistinct. f_equal. f_equal.
  destruct l as [|a t]; [reflexivity|].
  unfold optionalMatch. generalize (a :: t). intros l.
  induction l as [|x r IH]; simpl; [reflexivity | now rewrite IH].
Qed.

End Distinct.

(** ** Variable-length patterns and reachability *)

Section Expansion.

Import Cypher Reach.

Lemma Props_eq_dec (a b : Props.t) : {a = b} + {a <> b}.
Proof. decide equality; apply string_dec. Qed.

Lemma Node_eq_dec (a b : Node) : {a = b} + {a <> b}.
Proof.
  decide equality.
  - apply Props_eq_dec.
  - apply (list_eq_dec string_dec).
  - apply Nat.eq_dec.
Qed.

Lemma Rel_eq_dec (a b : Rel) : {a = b} + {a <> b}.
Proof. decide equality; try apply Node_eq_dec. apply string_dec. Qed.

Lemma picks_sound {A : Type} (l : list A) (p : A * list A) :
  In p (picks l) ->
  exists l1 l2, l = l1 ++ fst p :: l2 /\ snd p = l1 ++ l2.
Proof.
  revert p. induction l as [|x t IH]; intros p H; simpl in H.
  - contradiction.
  - destruct H as [<-|H].
    + exists [], t. split; reflexivity.
    + apply in_map_iff in H. destruct H as (q & <- & Hq).
      destruct (IH q Hq) as (l1 & l2 & -> & E).
      exists (x :: l1), l2. simpl. rewrite E. split; reflexivity.
Qed.

Lemma picks_complete {A : Type} (l1 l2 : list A) (x : A) :
  In (x, l1 ++ l2) (picks (l1 ++ x :: l2)).
Proof.
  induction l1 as [|y t IH]; simpl.
  - now left.
  - right. apply in_map_iff. exists (x, t ++ l2). split; [reflexivity|].
    exact IH.
Qed.

Lemma walk_edges (E : list Rel) (c d : nat) (w : list Rel) :
  walk E c d w -> forall x, In x w -> In x E.
Proof.
  induction 1 as [r Hr|r start w Hr Hw IH]; intros x Hx.
  - destruct Hx as [<-|[]]. assumption.
  - destruct Hx as [<-|Hx]; [assumption | now apply IH].
Qed.

Lemma walk_restrict (E E' : list Rel) (c d : nat) (w : list Rel) :
  walk E c d w -> (forall x, In x w -> In x E') -> walk E' c d w.
Proof.
  induction 1 as [r Hr|r start w Hr Hw IH]; intros Hin.
  - apply walk_last. apply Hin. now left.
  - apply walk_step.
    + apply Hin. now left.
    + apply IH. intros x Hx. apply Hin. now right.
Qed.

Lemma walk_incl (E E' : list Rel) (c d : nat) (w : list Rel) :
  walk E c d w -> (forall x, In x E -> In x E') -> walk E' c d w.
Proof.
  intros Hw Hi. eapply walk_restrict; [exact Hw|].
  intros x Hx. apply Hi. eapply walk_edges; eassumption.
Qed.

Lemma walk_length (E : list Rel) (c d : nat) (w : list Rel) :
  walk E c d w -> 1 <= length w.
Proof. destruct 1; simpl; lia. Qed.

(** Cutting a walk at one of its relationships leaves the walk that starts
    the same and ends with that relationship. *)
Lemma walk_suffix (E : list Rel) (c d : nat) (w1 w3 : list Rel) (r : Rel) :
  walk E c d (w1 ++ r :: w3) -> walk E (nid (endNode r)) d (r :: w3).
Proof.
  revert c. induction w1 as [|x t IH]; intros c H; simpl in H.
  - inversion H; subst.
    + apply walk_last. assumption.
    + apply walk_step; assumption.
  - inversion H; subst.
    + destruct t; discriminate.
    + eapply IH. eassumption.
Qed.

(** Every row of the expansion is a chain of the stated length. *)
Lemma expandInto_sound (fuel : nat) (avail : list Rel) (c k : nat)
  (n : Node) (m : nat) :
  In (n, m) (expandInto fuel avail c k) ->
  exists w, walk avail c (nid n) w /\ m = k + length w.
Proof.
  revert avail c k. induction fuel as [|f IH]; intros avail c k H;
    simpl in H; [contradiction|].
  apply in_flat_map in H. destruct H as (p & Hp & H).
  destruct (picks_sound _ _ Hp) as (l1 & l2 & Ha & Hrest).
  destruct (Nat.eqb (nid (endNode (fst p))) c) eqn:Ec; [|contradiction].
  apply Nat.eqb_eq in Ec. subst c.
  assert (In (fst p) avail) as Hin.
  { rewrite Ha. apply in_or_app. right. now left. }
  destruct H as [H|H].
  - injection H as <- <-. exists [fst p]. split.
    + now apply walk_last.
    + simpl. lia.
  - destruct (IH _ _ _ H) as (w & Hw & ->).
    exists (fst p :: w). split.
    + apply walk_step; [assumption|].
      eapply walk_incl; [exact Hw|].
      intros x Hx. rewrite Hrest in Hx. rewrite Ha.
      apply in_app_or in Hx. apply in_or_app.
      destruct Hx; [now left | right; now right].
    + simpl. lia.
Qed.

(** Every chain, however it repeats relationships, is matched by a row for
    the same start node that is no longer than the chain. *)
Lemma expandInto_complete (fuel : nat) :
  forall (avail : list Rel), length avail <= fuel ->
  forall (len : nat) (w : list Rel), length w <= len ->
  forall (c d k : nat),
    walk avail c d w ->
    exists n m,
      nid n = d /\ 1 <= m <= length w
      /\ In (n, k + m) (expandInto fuel avail c k).
Proof.
  induction fuel as [|f IHf]; intros avail Hf.
  - destruct avail; [|simpl in Hf; lia].
    intros len w _ c d k H. destruct H as [r []|r ? ? []].
  - induction len as [|len IHlen]; intros w Hlen c d k H.
    + apply walk_length in H. lia.
    + destruct H as [r Hr|r d w Hr Hw].
      * apply in_split in Hr. destruct Hr as (l1 & l2 & ->).
        exists (startNode r), 1. split; [reflexivity|].
        split; [simpl; lia|].
        simpl. apply in_flat_map. exists (r, l1 ++ l2).
        split; [apply picks_complete|].
        simpl. rewrite Nat.eqb_refl. left. f_equal. lia.
      * destruct (in_dec Rel_eq_dec r w) as [Hused|Hfresh].
        -- apply in_split in Hused. destruct Hused as (w1 & w3 & ->).
           apply walk_suffix in Hw.
           destruct (IHlen (r :: w3)) with (c := nid (endNode r)) (d := d)
             (k := k) as (n & m & Hn & Hm & Hrow).
           { simpl in *. rewrite length_app in Hlen. simpl in Hlen. lia. }
           { exact Hw. }
           exists n, m. split; [assumption|]. split; [|assumption].
           simpl in *. rewrite length_app. simpl. lia.
        -- pose proof Hr as Hsplit. apply in_split in Hsplit.
           destruct Hsplit as (l1 & l2 & ->).
           assert (walk (l1 ++ l2) (nid (startNode r)) d w) as Hw'.
           { eapply walk_restrict; [exact Hw|].
             intros x Hx.
             assert (In x (l1 ++ r :: l2)) as Hin
               by (eapply walk_edges; eassumption).
             apply in_app_or in Hin. apply in_or_app.
             destruct Hin as [Hin|[<-|Hin]]; [now left|tauto|now right]. }
           destruct (IHf (l1 ++ l2)) with (len := length w) (w := w)
             (c := nid (startNode r)) (d := d) (k := S k)
             as (n & m & Hn & Hm & Hrow).
           { rewrite length_app in *. simpl in Hf. lia. }
           { lia. }
           { exact Hw'. }
           exists n, (S m). split; [assumption|]. split; [simpl; lia|].
           simpl. apply in_flat_map. exists (r, l1 ++ l2).
           split; [apply picks_complete|].
           simpl. rewrite Nat.eqb_refl. right.
           replace (k + S m) with (S k + m) by lia. exact Hrow.
Qed.

Lemma flat_map_ext_in {A B : Type} (f g : A -> list B) (l : list A) :
  (forall a, In a l -> f a = g a) -> flat_map f l = flat_map g l.
Proof.
  induction l as [|x t IH]; intros H; simpl; [reflexivity|].
  rewrite (H x) by now left. f_equal. apply IH.
  intros a Ha. apply H. now right.
Qed.

(** The relationship count is enough fuel: more fuel changes nothing, so
    the expansion is never cut short. *)
Lemma expandInto_fuel (f1 : nat) :
  forall (f2 : nat) (avail : list Rel) (c k : nat),
    length avail <= f1 -> length avail <= f2 ->
    expandInto f1 avail c k = expandInto f2 avail c k.
Proof.
  induction f1 as [|f1 IH]; intros f2 avail c k H1 H2.
  - destruct avail; [|simpl in H1; lia]. destruct f2; reflexivity.
  - destruct f2 as [|f2].
    + destruct avail; [reflexivity | simpl in H2; lia].
    + simpl. apply flat_map_ext_in. intros p Hp.
      destruct (picks_sound _ _ Hp) as (l1 & l2 & Ha & Hrest).
      destruct (Nat.eqb (nid (endNode (fst p))) c); [|reflexivity].
      f_equal. apply IH; rewrite Hrest; rewrite Ha in *;
        rewrite length_app in *; simpl in *; lia.
Qed.

End Expansion.

(** ** Dependents of a node *)

Section Dependents.

Import Cypher Reach Routes.

Lemma varLength_sound (s : Store) (root n : Node) (m : nat) :
  In (n, m) (varLength s root) -> pathOfLength s (nid n) (nid root) m.
Proof.
  intros H. apply expandInto_sound in H. destruct H as (w & Hw & ->).
  exists w. split; [assumption | reflexivity].
Qed.

Lemma varLength_complete (s : Store) (root : Node) (d m : nat) :
  pathOfLength s d (nid root) m ->
  exists n m', nid n = d /\ 1 <= m' <= m /\ In (n, m') (varLength s root).
Proof.
  intros (w & Hw & <-).
  destruct (expandInto_complete (length (dependsOn s)) (dependsOn s)
              (le_n _) (length w) w (le_n _) (nid root) d 0 Hw)
    as (n & m' & Hn & Hm & Hrow).
  exists n, m'. auto.
Qed.

Lemma varLength_reach (s : Store) (root : Node) (i : nat) :
  In i (map nid (map fst (varLength s root)))
  <-> dependsTransitively s i (nid root).
Proof.
  split.
  - intros H. apply in_map_iff in H. destruct H as (n & <- & H).
    apply in_map_iff in H. destruct H as ([n' m] & <- & H).
    destruct (varLength_sound _ _ _ _ H) as (w & Hw & _). now exists w.
  - intros (w & Hw).
    destruct (varLength_complete s root i (length w)) as (n & m & <- & _ & H).
    { exists w. auto. }
    apply in_map. apply in_map_iff. exists (n, m). auto.
Qed.

Lemma dependents_reach (s : Store) (root : Node) (i : nat) :
  In i (map nid (dependents s root))
  <-> dependsTransitively s i (nid root).
Proof.
  unfold dependents, distinct. rewrite distinctFrom_nid, varLength_reach.
  simpl. tauto.
Qed.

Lemma dependents_NoDup (s : Store) (root : Node) :
  NoDup (map nid (dependents s root)).
Proof. apply distinctFrom_NoDup. Qed.

Lemma countDependents_length (s : Store) (root : Node) :
  countDependents s root = length (dependents s root).
Proof. apply countDistinct_optionalMatch. Qed.

Lemma countDependents_zero (s : Store) (root : Node) :
  (forall d, ~ dependsTransitively s d (nid root)) ->
  varLength s root = [] /\ countDependents s root = 0.
Proof.
  intros H.
  assert (varLength s root = []) as E.
  { destruct (varLength s root) as [|[n m] t] eqn:E; [reflexivity|].
    exfalso. apply (H (nid n)). apply varLength_reach. rewrite E.
    now left. }
  split; [assumption|].
  rewrite countDependents_length. unfold dependents. now rewrite E.
Qed.

End Dependents.

(** ** Matching units *)

Section Matching.

Import Cypher Reach Routes.

Lemma IN_In (x : string) (l : list string) : IN x l = true <-> In x l.
Proof.
  unfold IN. rewrite existsb_exists. split.
  - intros (y & Hy & E). apply String.eqb_eq in E. now subst.
  - intros H. exists x. split; [assumption | apply String.eqb_refl].
Qed.

Lemma matchUnits_In (s : Store) (p : Node -> bool) (n : Node) :
  In n (matchUnits s p)
  <-> In n (nodes s) /\ hasLabel "InfrastructureUnit" n = true /\ p n = true.
Proof.
  unfold matchUnits. rewrite filter_In, andb_true_iff. tauto.
Qed.

Lemma matchUnits_filter (s : Store) (p : Node -> bool) :
  matchUnits s p = filter p (matchUnits s (fun _ => true)).
Proof.
  unfold matchUnits. induction (nodes s) as [|n t IH]; simpl;
    [reflexivity|].
  destruct (hasLabel "InfrastructureUnit" n); simpl.
  - destruct (p n); now rewrite IH.
  - exact IH.
Qed.

Lemma candidates_In (s : Store) (type : string) (locations : list string)
  (n : Node) :
  In n (candidates s type locations)
  <-> In n (nodes s)
      /\ hasLabel "InfrastructureUnit" n = true
      /\ Props.type (properties n) = type
      /\ In (Props.location (properties n)) locations.
Proof.
  unfold candidates. rewrite matchUnits_In, andb_true_iff.
  rewrite String.eqb_eq, IN_In. tauto.
Qed.

Lemma noDupStrings_NoDup (l : list string) :
  noDupStrings l = true -> NoDup l.
Proof.
  induction l as [|x t IH]; simpl; intros H; constructor.
  - apply andb_true_iff in H. destruct H as [H _].
    intros Hin. apply IN_In in Hin. rewrite Hin in H. discriminate.
  - apply andb_true_iff in H. now apply IH.
Qed.

Lemma filter_absent_key {A : Type} (f : A -> string) (l : list A)
  (k : string) :
  ~ In k (map f l) -> filter (fun y => String.eqb (f y) k) l = [].
Proof.
  induction l as [|y t IH]; intros H; simpl in *; [reflexivity|].
  destruct (String.eqb (f y) k) eqn:E.
  - apply String.eqb_eq in E. exfalso. apply H. now left.
  - apply IH. intros Hin. apply H. now right.
Qed.

Lemma filter_unique_key {A : Type} (f : A -> string) (l : list A) (x : A) :
  NoDup (map f l) -> In x l ->
  filter (fun y => String.eqb (f y) (f x)) l = [x].
Proof.
  induction l as [|y t IH]; intros Hnd Hin; simpl in *; [contradiction|].
  inversion Hnd as [|? ? Hy Ht]; subst.
  destruct Hin as [->|Hin].
  - rewrite String.eqb_refl. f_equal. now apply filter_absent_key.
  - destruct (String.eqb (f y) (f x)) eqn:E.
    + apply String.eqb_eq in E. exfalso. apply Hy. rewrite E.
      now apply in_map.
    + now apply IH.
Qed.

(** With unique unit ids, matching a unit by its id finds that unit only. *)
Lemma matchUnits_by_id (s : Store) (root : Node) :
  uniqueIds s = true ->
  In root (nodes s) -> hasLabel "InfrastructureUnit" root = true ->
  matchUnits s
    (fun n => String.eqb (Props.id (properties n))
                         (Props.id (properties root)))
  = [root].
Proof.
  intros Hu Hin Hl. rewrite matchUnits_filter.
  apply (filter_unique_key (fun n => Props.id (properties n))).
  - apply noDupStrings_NoDup in Hu. exact Hu.
  - apply matchUnits_In. auto.
Qed.

Lemma split_nonempty (sep : ascii) (str : string) : Js.split sep str <> [].
Proof.
  destruct str as [|c r]; simpl; [discriminate|].
  destruct (Ascii.eqb c sep); [discriminate|].
  destruct (Js.split sep r); discriminate.
Qed.

Lemma falsy_Some (v : string) : v <> "" -> Js.falsy (Some v) = false.
Proof. intros H. simpl. now apply String.eqb_neq. Qed.

End Matching.

(** ** The shape of the [GET /root-cause] answers *)

Section RootCauseShape.

Import Cypher Reach Routes.

Lemma rootResult_nil (s : Store) (type : string) (locations : list string) :
  rootResult s type locations = [] <-> candidates s type locations = [].
Proof.
  unfold rootResult, limit. split; intros H.
  - destruct (orderByDesc snd _) as [|x r] eqn:E; [|discriminate].
    apply (f_equal (@length _)) in E. unfold orderByDesc in E.
    rewrite sortBy_length, length_map in E.
    now apply length_zero_iff_nil.
  - now rewrite H.
Qed.

(** The record the first query returns: the earliest candidate, in scan
    order, whose count is maximal. *)
Lemma rootResult_head (s : Store) (type : string) (locations : list string)
  (record : Node * nat) (rest : list (Node * nat)) :
  rootResult s type locations = record :: rest ->
  exists l1 l2,
    candidates s type locations = l1 ++ fst record :: l2
    /\ snd record = countDependents s (fst record)
    /\ (forall y, In y l1 -> countDependents s y < snd record)
    /\ (forall y, In y l2 -> countDependents s y <= snd record).
Proof.
  unfold rootResult, limit. intros H.
  destruct (orderByDesc snd _) as [|x r] eqn:E; [discriminate|].
  simpl in H. injection H as <- _.
  apply orderByDesc_head in E. destruct E as (r1 & r2 & E & H1 & H2).
  apply map_eq_app in E. destruct E as (l1 & l2' & Ec & <- & E).
  apply map_eq_cons in E. destruct E as (c & l2 & -> & <- & <-).
  exists l1, l2. simpl. split; [assumption|]. split; [reflexivity|].
  split.
  - intros y Hy. apply (H1 (y, countDependents s y)).
    apply in_map_iff. exists y. auto.
  - intros y Hy. apply (H2 (y, countDependents s y)).
    apply in_map_iff. exists y. auto.
Qed.

Lemma getRootCause_Json (s : Store) (type locations : option string)
  (body : RootCauseBody) :
  getRootCause s type locations = Json body ->
  exists root l1 l2,
    candidates s (paramValue type) (Js.split "," (paramValue locations))
    = l1 ++ root :: l2
    /\ (forall y, In y l1 -> countDependents s y < countDependents s root)
    /\ (forall y, In y l2 -> countDependents s y <= countDependents s root)
    /\ body = bodyFor s root.
Proof.
  unfold getRootCause. intros H.
  destruct (Js.falsy type || Js.falsy locations); [discriminate|].
  destruct (rootResult s _ _) as [|record rest] eqn:E; [discriminate|].
  apply rootResult_head in E.
  destruct E as (l1 & l2 & Ec & Hs & H1 & H2).
  exists (fst record), l1, l2. rewrite <- Hs.
  split; [assumption|]. split; [assumption|]. split; [assumption|].
  injection H as <-. unfold bodyFor. now rewrite Hs.
Qed.

Lemma getRootCause_valid (s : Store) (type locations : string) :
  type <> "" -> locations <> "" ->
  getRootCause s (Some type) (Some locations)
  = match rootResult s type (Js.split "," locations) with
    | [] => noInfrastructure type (Js.split "," locations)
    | record :: _ => Json (bodyFor s (fst record))
    end.
Proof.
  intros Ht Hl. unfold getRootCause.
  rewrite (falsy_Some _ Ht), (falsy_Some _ Hl). simpl.
  destruct (rootResult s type _) as [|record rest] eqn:E; [reflexivity|].
  apply rootResult_head in E. destruct E as (_ & _ & _ & Hs & _).
  unfold bodyFor. now rewrite Hs.
Qed.

Lemma getRootCause_max (s : Store) (type locations : option string)
  (body : RootCauseBody) :
  getRootCause s type locations = Json body ->
  exists root,
    In root
       (candidates s (paramValue type)
                   (Js.split "," (paramValue locations)))
    /\ body = bodyFor s root
    /\ forall c,
         In c (candidates s (paramValue type)
                          (Js.split "," (paramValue locations))) ->
         countDependents s c <= countDependents s root.
Proof.
  intros H. apply getRootCause_Json in H.
  destruct H as (root & l1 & l2 & Ec & H1 & H2 & ->).
  exists root. rewrite Ec. split; [apply in_or_app; right; now left|].
  split; [reflexivity|]. intros c Hc. apply in_app_or in Hc.
  destruct Hc as [Hc|[<-|Hc]].
  - specialize (H1 c Hc). lia.
  - lia.
  - now apply H2.
Qed.

(** With unique ids the second query ranks the dependents of the selected
    root and of no other unit. *)
Lemma impactRows_root (s : Store) (root : Node) :
  uniqueIds s = true ->
  In root (nodes s) -> hasLabel "InfrastructureUnit" root = true ->
  impactRows s (Props.id (properties root)) = varLength s root.
Proof.
  intros Hu Hin Hl. unfold impactRows.
  rewrite (matchUnits_by_id s root Hu Hin Hl). simpl. apply app_nil_r.
Qed.

End RootCauseShape.

(* ================================================================== *)
(** * Part III. The properties of the specification                    *)
(* ================================================================== *)

(** ** The scenarios of the specification, evaluated *)

Section Scenarios.

Import Cypher Reach Routes Examples.

Example split_locations :
  Js.split "," "north,south,,east" = ["north"; "south"; ""; "east"]
  /\ Js.split "," "" = [""].
Proof. split; reflexivity. Qed.

Example scenario1_root_cause :
  getRootCause scenario1 (Some "power") (Some "north")
  = Json {| rootCause := properties P1;
            impactChain := [properties S1; properties P2];
            affectedServices := 2;
            criticalPath := ["Switch 1"; "Plant 2"] |}.
Proof. reflexivity. Qed.

Example scenario3_region :
  exists body,
    getAnalyzeRegion scenario3 (Some "North") (Some "north") = Json body
    /\ totalUnits body = 6
    /\ map dependentCount (criticalUnits body) = [4; 3; 2; 1]
    /\ vulnerabilities body
       = ["4 critical infrastructure units identified";
          "Single point of failure risk in U1"].
Proof. eexists. repeat split. Qed.

Example scenario4_paths :
  map (fun row => (Props.id (properties (fst row)), snd row))
      (varLength scenario4 unitA)
  = [("C", 1); ("B", 2); ("A", 3); ("D", 4); ("D", 1)].
Proof. reflexivity. Qed.

Example scenario4_root_cause :
  exists body,
    getRootCause scenario4 (Some "power") (Some "north") = Json body
    /\ affectedServices body = 4
    /\ criticalPath body = ["Unit C"; "Unit D"; "Unit B"; "Unit A"].
Proof. eexists. repeat split. Qed.

End Scenarios.

Section RootCauseSelection.

Import Cypher Reach Routes Examples.

(** C1, as stated, fails.  In [twoPlants] both power units of "north" have
    no dependents; the query orders by [dependentCount] only, so the unit
    stored first, P2, is returned although P1 has the smaller id. *)
Lemma C1_tie_not_broken_by_id :
  exists body,
    getRootCause twoPlants (Some "power") (Some "north") = Json body
    /\ rootCause body = properties P2
    /\ In P1 (candidates twoPlants "power" (Js.split "," "north"))
    /\ countDependents twoPlants P1 = countDependents twoPlants P2
    /\ String.ltb (Props.id (properties P1)) (Props.id (properties P2))
       = true.
Proof.
  eexists. split; [vm_compute; reflexivity|].
  split; [reflexivity|]. split; [vm_compute; tauto|].
  split; reflexivity.
Qed.

(** C1 (amended): for present, non-empty parameters and a non-empty
    candidate set, [GET /root-cause] answers with a candidate whose count of
    distinct transitive dependents is maximal among the candidates; when
    several candidates reach the maximum it is the one that comes first in
    the store's scan order (every candidate before it has a strictly smaller
    count). *)
Theorem C1_root_is_first_maximal_candidate
  (s : Store) (type locations : string) :
  type <> "" -> locations <> "" ->
  candidates s type (Js.split "," locations) <> [] ->
  exists body root before after,
    getRootCause s (Some type) (Some locations) = Json body
    /\ rootCause body = properties root
    /\ affectedServices body = length (dependents s root)
    /\ candidates s type (Js.split "," locations) = before ++ root :: after
    /\ (forall c, In c (candidates s type (Js.split "," locations)) ->
          length (dependents s c) <= length (dependents s root))
    /\ (forall c, In c before ->
          length (dependents s c) < length (dependents s root)).
Proof.
  intros Ht Hl Hc.
  rewrite (getRootCause_valid s type locations Ht Hl).
  destruct (rootResult s type (Js.split "," locations))
    as [|record rest] eqn:E.
  - apply rootResult_nil in E. contradiction.
  - apply rootResult_head in E. destruct E as (l1 & l2 & Ec & Hs & H1 & H2).
    exists (bodyFor s (fst record)), (fst record), l1, l2.
    split; [reflexivity|]. split; [reflexivity|].
    split; [apply countDependents_length|].
    split; [assumption|]. rewrite Hs in H1, H2. split.
    + intros c Hin. rewrite Ec in Hin. rewrite <- !countDependents_length.
      apply in_app_or in Hin. destruct Hin as [Hin|[<-|Hin]].
      * specialize (H1 c Hin). lia.
      * lia.
      * now apply H2.
    + intros c Hin. rewrite <- !countDependents_length. now apply H1.
Qed.

Lemma C1_witness :
  "power" <> "" /\ "north" <> ""
  /\ candidates scenario1 "power" (Js.split "," "north") <> []
  /\ exists body root before after,
       getRootCause scenario1 (Some "power") (Some "north") = Json body
       /\ rootCause body = properties root
       /\ affectedServices body = length (dependents scenario1 root)
       /\ candidates scenario1 "power" (Js.split "," "north")
          = before ++ root :: after
       /\ (forall c,
             In c (candidates scenario1 "power" (Js.split "," "north")) ->
             length (dependents scenario1 c)
             <= length (dependents scenario1 root))
       /\ (forall c, In c before ->
             length (dependents scenario1 c)
             < length (dependents scenario1 root)).
Proof.
  split; [discriminate|]. split; [discriminate|].
  split; [vm_compute; discriminate|].
  apply (C1_root_is_first_maximal_candidate scenario1 "power" "north").
  - discriminate.
  - discriminate.
  - vm_compute. discriminate.
Defined.

(** C2: for present, non-empty parameters, [GET /root-cause] answers 404
    "No infrastructure found" exactly when no [InfrastructureUnit] has the
    requested type and a location in the list, and this is its only error
    answer; the answer's details name the requested type and the attempted
    locations. *)
Theorem C2_not_found_iff_no_matching_unit
  (s : Store) (type locations : string) :
  type <> "" -> locations <> "" ->
  let locationArray := Js.split "," locations in
  let response := getRootCause s (Some type) (Some locations) in
  let notFound : Response RootCauseBody :=
    Status 404
      {| error := "No infrastructure found";
         details :=
           Some ("No " ++ type
                 ++ " infrastructure found in the selected region. Available locations: "
                 ++ Js.join ", " locationArray)%string |} in
  ((forall n, In n (nodes s) ->
      hasLabel "InfrastructureUnit" n = true ->
      ~ (Props.type (properties n) = type
         /\ In (Props.location (properties n)) locationArray))
   <-> response = notFound)
  /\ (forall code e, response = Status code e -> response = notFound).
Proof.
  intros Ht Hl locationArray response notFound.
  subst response. rewrite (getRootCause_valid s type locations Ht Hl).
  fold locationArray.
  destruct (rootResult s type locationArray) as [|record rest] eqn:E.
  - apply rootResult_nil in E. split; [|reflexivity].
    split; [reflexivity|]. intros _ n Hin Hlab [Hty Hloc].
    assert (In n (candidates s type locationArray)) as Hc
      by (apply candidates_In; auto).
    rewrite E in Hc. contradiction.
  - apply rootResult_head in E. destruct E as (l1 & l2 & Ec & _).
    split; [|discriminate]. split; [|discriminate].
    intros Hnone. exfalso.
    assert (In (fst record) (candidates s type locationArray)) as Hc.
    { rewrite Ec. apply in_or_app. right. now left. }
    apply candidates_In in Hc. destruct Hc as (Hin & Hlab & Hty & Hloc).
    apply (Hnone _ Hin Hlab). auto.
Qed.

(** Scenario 2: no "water" unit in "east". *)
Lemma C2_witness :
  "water" <> "" /\ "east" <> ""
  /\ getRootCause scenario1 (Some "water") (Some "east")
     = Status 404
         {| error := "No infrastructure found";
            details :=
              Some "No water infrastructure found in the selected region. Available locations: east" |}.
Proof.
  split; [discriminate|]. split; [discriminate|].
  apply (C2_not_found_iff_no_matching_unit scenario1 "water" "east").
  - discriminate.
  - discriminate.
  - intros n Hin _ [Hty _]. simpl in Hin.
    destruct Hin as [<-|[<-|[<-|[]]]]; discriminate.
Defined.

End RootCauseSelection.

(** ** The ranked dependents of a root *)

Section Ranking.

Import Cypher Reach Routes.

Lemma sorted_after {A : Type} (R : A -> A -> Prop) (o1 o2 : list A) (x : A) :
  StronglySorted R (o1 ++ x :: o2) -> forall y, In y o2 -> R x y.
Proof.
  induction o1 as [|z t IH]; simpl; intros H y Hy.
  - inversion H as [|? ? _ Hall]; subst.
    rewrite Forall_forall in Hall. now apply Hall.
  - inversion H; subst. now apply IH.
Qed.

Lemma filter_split {A : Type} (f : A -> bool) (l F1 F2 : list A) (x : A) :
  filter f l = F1 ++ x :: F2 ->
  exists r1 r2, l = r1 ++ x :: r2 /\ filter f r1 = F1 /\ filter f r2 = F2.
Proof.
  revert F1. induction l as [|y t IH]; intros F1 H; simpl in H.
  - destruct F1; discriminate.
  - destruct (f y) eqn:E.
    + destruct F1 as [|z F1']; simpl in H; injection H as <- H.
      * exists [], t. auto.
      * destruct (IH _ H) as (r1 & r2 & -> & <- & <-).
        exists (y :: r1), r2. simpl. rewrite E. auto.
    + destruct (IH _ H) as (r1 & r2 & -> & <- & <-).
      exists (y :: r1), r2. simpl. rewrite E. auto.
Qed.

Lemma ranked_nid (s : Store) (root : Node) (i : nat) :
  In i (map nid (ranked s root)) <-> dependsTransitively s i (nid root).
Proof.
  rewrite <- varLength_reach. unfold ranked, distinct.
  rewrite distinctFrom_nid. simpl.
  assert (forall l : list (Node * nat),
            In i (map nid (map fst (orderByAsc snd l)))
            <-> In i (map nid (map fst l))) as Hperm.
  { intros l. split; apply Permutation_in;
      repeat apply Permutation_map;
      [|apply Permutation_sym]; apply sortBy_perm. }
  rewrite Hperm. tauto.
Qed.

Lemma ranked_length (s : Store) (root : Node) :
  length (ranked s root) = length (dependents s root).
Proof.
  apply distinct_same_length. intros i.
  split; apply Permutation_in; repeat apply Permutation_map;
    [|apply Permutation_sym]; apply sortBy_perm.
Qed.

Lemma impactResult_ranked (s : Store) (root : Node) :
  uniqueIds s = true ->
  In root (nodes s) -> hasLabel "InfrastructureUnit" root = true ->
  impactResult s (Props.id (properties root)) = firstn 10 (ranked s root).
Proof.
  intros Hu Hin Hl. unfold impactResult, limit, ranked.
  now rewrite impactRows_root.
Qed.

(** Where an entry of the ranking sits among the sorted rows. *)
Lemma ranked_position (s : Store) (root a : Node) (p q : list Node) :
  ranked s root = p ++ a :: q ->
  exists o1 o2 n,
    orderByAsc snd (varLength s root) = o1 ++ (a, n) :: o2
    /\ ~ In (nid a) (map nid (map fst o1))
    /\ forall b, In b q ->
         ~ In (nid b) (map nid (map fst o1)) /\ nid b <> nid a.
Proof.
  intros H. apply distinctFrom_split in H.
  destruct H as (i1 & i2 & E & Ha & Hq).
  apply map_eq_app in E. destruct E as (o1 & o2' & E & <- & E2).
  apply map_eq_cons in E2. destruct E2 as ([a' n] & o2 & -> & <- & _).
  exists o1, o2, n. auto.
Qed.

(** Ascending minimum depth: an entry listed earlier is at most as far
    from the root as any path of a later entry is long. *)
Lemma ranked_ascending (s : Store) (root a b : Node) (l1 l2 l3 : list Node)
  (m : nat) :
  ranked s root = l1 ++ a :: l2 ++ b :: l3 ->
  pathOfLength s (nid b) (nid root) m ->
  exists n, n <= m /\ pathOfLength s (nid a) (nid root) n.
Proof.
  intros Hr Hb.
  destruct (ranked_position _ _ _ _ _ Hr) as (o1 & o2 & n & Eo & _ & Hq).
  destruct (Hq b) as [Hb1 Hba]; [apply in_or_app; right; now left|].
  destruct (varLength_complete _ _ _ _ Hb) as (b' & m' & Hnb & Hm & Hrow).
  apply (sortBy_In (fun x y => Nat.leb (snd x) (snd y))) in Hrow.
  fold (orderByAsc (@snd Node nat) (varLength s root)) in Hrow.
  rewrite Eo in Hrow.
  pose proof (orderByAsc_sorted (@snd Node nat) (varLength s root)) as Hs.
  rewrite Eo in Hs.
  exists n. split.
  - apply in_app_or in Hrow. destruct Hrow as [Hrow|[Hrow|Hrow]].
    + exfalso. apply Hb1. rewrite <- Hnb.
      apply in_map. apply (in_map fst) in Hrow. exact Hrow.
    + injection Hrow as -> _. congruence.
    + pose proof (sorted_after _ _ _ _ Hs _ Hrow) as Hle. simpl in Hle. lia.
  - apply varLength_sound.
    apply (sortBy_In (fun x y => Nat.leb (snd x) (snd y))).
    fold (orderByAsc (@snd Node nat) (varLength s root)).
    rewrite Eo. apply in_or_app. right. now left.
Qed.

(** Ties: when [a] is listed before [b] and [m] is the minimum depth of
    [a], the expansion finds a path of length [m] from [a] before it finds
    any path of length [m] from [b]. *)
Lemma ranked_ties (s : Store) (root a b : Node) (l1 l2 l3 : list Node)
  (m : nat) :
  ranked s root = l1 ++ a :: l2 ++ b :: l3 ->
  minDepth s (nid a) (nid root) m ->
  exists r1 r2,
    varLength s root = r1 ++ (a, m) :: r2
    /\ forall b', In (b', m) r1 -> nid b' <> nid b.
Proof.
  intros Hr [Ha Hamin].
  destruct (ranked_position _ _ _ _ _ Hr) as (o1 & o2 & n & Eo & Ha1 & Hq).
  destruct (Hq b) as [Hb1 _]; [apply in_or_app; right; now left|].
  pose proof (orderByAsc_sorted (@snd Node nat) (varLength s root)) as Hs.
  rewrite Eo in Hs.
  assert (In (a, n) (varLength s root)) as Hrow.
  { apply (sortBy_In (fun x y => Nat.leb (snd x) (snd y))).
    fold (orderByAsc (@snd Node nat) (varLength s root)).
    rewrite Eo. apply in_or_app. right. now left. }
  assert (n = m) as ->.
  { apply Nat.le_antisymm.
    - destruct (varLength_complete _ _ _ _ Ha) as (a' & m' & Hna & Hm & Hr').
      apply (sortBy_In (fun x y => Nat.leb (snd x) (snd y))) in Hr'.
      fold (orderByAsc (@snd Node nat) (varLength s root)) in Hr'.
      rewrite Eo in Hr'. apply in_app_or in Hr'.
      destruct Hr' as [Hr'|[Hr'|Hr']].
      + exfalso. apply Ha1. rewrite <- Hna.
        apply in_map. apply (in_map fst) in Hr'. exact Hr'.
      + injection Hr' as _ ->. lia.
      + pose proof (sorted_after _ _ _ _ Hs _ Hr') as Hle.
        simpl in Hle. lia.
    - apply Hamin. now apply varLength_sound. }
  pose proof (orderByAsc_stable (@snd Node nat) m (varLength s root)) as Hst.
  rewrite Eo, filter_app in Hst. simpl in Hst.
  rewrite Nat.eqb_refl in Hst. symmetry in Hst.
  apply filter_split in Hst. destruct Hst as (r1 & r2 & E & Hf1 & _).
  exists r1, r2. split; [assumption|].
  intros b' Hin Heq. apply Hb1. rewrite <- Heq.
  assert (In (b', m) (filter (fun y => Nat.eqb (snd y) m) o1)) as Hin'.
  { rewrite <- Hf1. apply filter_In. split; [assumption|].
    simpl. apply Nat.eqb_refl. }
  apply filter_In in Hin'. destruct Hin' as [Hin' _].
  apply in_map. apply (in_map fst) in Hin'. exact Hin'.
Qed.

End Ranking.

Section RootCauseAnswer.

Import Cypher Reach Routes Examples.

(** What a successful [GET /root-cause] answer is made of, given unique
    unit ids. *)
Lemma getRootCause_answer (s : Store) (type locations : option string)
  (body : RootCauseBody) :
  uniqueIds s = true ->
  getRootCause s type locations = Json body ->
  exists root,
    In root
       (candidates s (paramValue type)
                   (Js.split "," (paramValue locations)))
    /\ rootCause body = properties root
    /\ affectedServices body = length (dependents s root)
    /\ impactChain body = map properties (firstn 10 (ranked s root))
    /\ criticalPath body = map Props.name (impactChain body).
Proof.
  intros Hu H. apply getRootCause_Json in H.
  destruct H as (root & l1 & l2 & Ec & _ & _ & ->).
  assert (In root (candidates s (paramValue type)
                      (Js.split "," (paramValue locations)))) as Hc.
  { rewrite Ec. apply in_or_app. right. now left. }
  exists root. split; [assumption|].
  apply candidates_In in Hc. destruct Hc as (Hin & Hlab & _).
  unfold bodyFor. simpl. rewrite (impactResult_ranked s root Hu Hin Hlab).
  repeat split. apply countDependents_length.
Qed.

(** C3: with unique unit ids, the impactChain of a successful answer is
    the first 10 entries of the ranking of the root's distinct transitive
    dependents; the ranking lists each dependent once, in ascending minimum
    depth (an earlier entry has a path to the root no longer than any path
    of a later entry), equal depths in the order in which the expansion
    finds their shortest paths; criticalPath is the names of the impactChain
    entries in the same order. *)
Theorem C3_impact_chain_by_depth_capped_at_10
  (s : Store) (type locations : option string) (body : RootCauseBody) :
  uniqueIds s = true ->
  getRootCause s type locations = Json body ->
  exists root,
    In root
       (candidates s (paramValue type)
                   (Js.split "," (paramValue locations)))
    /\ rootCause body = properties root
    /\ impactChain body = map properties (firstn 10 (ranked s root))
    /\ length (impactChain body) <= 10
    /\ criticalPath body = map Props.name (impactChain body)
    /\ NoDup (map nid (ranked s root))
    /\ (forall i, In i (map nid (ranked s root))
                  <-> dependsTransitively s i (nid root))
    /\ (forall l1 a l2 b l3 m,
          ranked s root = l1 ++ a :: l2 ++ b :: l3 ->
          pathOfLength s (nid b) (nid root) m ->
          exists n, n <= m /\ pathOfLength s (nid a) (nid root) n)
    /\ (forall l1 a l2 b l3 m,
          ranked s root = l1 ++ a :: l2 ++ b :: l3 ->
          minDepth s (nid a) (nid root) m ->
          exists r1 r2,
            varLength s root = r1 ++ (a, m) :: r2
            /\ forall b', In (b', m) r1 -> nid b' <> nid b).
Proof.
  intros Hu H.
  destruct (getRootCause_answer s type locations body Hu H)
    as (root & Hc & Hroot & _ & Hchain & Hpath).
  exists root. split; [assumption|]. split; [assumption|].
  split; [assumption|]. split.
  { rewrite Hchain, length_map. apply firstn_le_length. }
  split; [assumption|]. split; [apply distinctFrom_NoDup|].
  split; [apply ranked_nid|]. split.
  - intros l1 a l2 b l3 m. apply ranked_ascending.
  - intros l1 a l2 b l3 m. apply ranked_ties.
Qed.

Lemma C3_witness :
  uniqueIds scenario4 = true
  /\ exists root,
       In root (candidates scenario4 "power" (Js.split "," "north"))
       /\ rootCause (bodyFor scenario4 unitA) = properties root
       /\ impactChain (bodyFor scenario4 unitA)
          = map properties (firstn 10 (ranked scenario4 root))
       /\ length (impactChain (bodyFor scenario4 unitA)) <= 10
       /\ criticalPath (bodyFor scenario4 unitA)
          = map Props.name (impactChain (bodyFor scenario4 unitA))
       /\ NoDup (map nid (ranked scenario4 root))
       /\ (forall i, In i (map nid (ranked scenario4 root))
                     <-> dependsTransitively scenario4 i (nid root))
       /\ (forall l1 a l2 b l3 m,
             ranked scenario4 root = l1 ++ a :: l2 ++ b :: l3 ->
             pathOfLength scenario4 (nid b) (nid root) m ->
             exists n, n <= m /\ pathOfLength scenario4 (nid a) (nid root) n)
       /\ (forall l1 a l2 b l3 m,
             ranked scenario4 root = l1 ++ a :: l2 ++ b :: l3 ->
             minDepth scenario4 (nid a) (nid root) m ->
             exists r1 r2,
               varLength scenario4 root = r1 ++ (a, m) :: r2
               /\ forall b', In (b', m) r1 -> nid b' <> nid b).
Proof.
  split; [reflexivity|].
  apply (C3_impact_chain_by_depth_capped_at_10
           scenario4 (Some "power") (Some "north") (bodyFor scenario4 unitA)).
  - reflexivity.
  - vm_compute. reflexivity.
Defined.

(** C4: with unique unit ids, affectedServices of a successful answer is
    the number of distinct nodes that transitively depend on the selected
    root (a candidate of the store, the one whose properties are
    rootCause), whatever the cap on the chain; so the impactChain has
    [min 10 affectedServices] entries, never more than affectedServices,
    and as many exactly when the dependents are at most 10. *)
Theorem C4_affected_services_uncapped
  (s : Store) (type locations : option string) (body : RootCauseBody) :
  uniqueIds s = true ->
  getRootCause s type locations = Json body ->
  exists root,
    In root
       (candidates s (paramValue type)
                   (Js.split "," (paramValue locations)))
    /\ rootCause body = properties root
    /\ NoDup (map nid (dependents s root))
    /\ (forall i, In i (map nid (dependents s root))
                  <-> dependsTransitively s i (nid root))
    /\ affectedServices body = length (dependents s root)
    /\ length (impactChain body) = Nat.min 10 (affectedServices body)
    /\ length (impactChain body) <= affectedServices body
    /\ (affectedServices body = length (impactChain body)
        <-> length (dependents s root) <= 10).
Proof.
  intros Hu H.
  destruct (getRootCause_answer s type locations body Hu H)
    as (root & Hc & Hroot & Haff & Hchain & _).
  exists root. split; [assumption|]. split; [assumption|].
  split; [apply dependents_NoDup|]. split; [apply dependents_reach|].
  split; [assumption|].
  assert (length (impactChain body) = Nat.min 10 (affectedServices body))
    as Hlen.
  { rewrite Hchain, length_map, length_firstn, ranked_length, Haff.
    reflexivity. }
  split; [assumption|]. rewrite Hlen, <- Haff. split; lia.
Qed.

Lemma C4_witness :
  uniqueIds scenario1 = true
  /\ exists root,
       In root (candidates scenario1 "power" (Js.split "," "north"))
       /\ rootCause (bodyFor scenario1 P1) = properties root
       /\ NoDup (map nid (dependents scenario1 root))
       /\ (forall i, In i (map nid (dependents scenario1 root))
                     <-> dependsTransitively scenario1 i (nid root))
       /\ affectedServices (bodyFor scenario1 P1)
          = length (dependents scenario1 root)
       /\ length (impactChain (bodyFor scenario1 P1))
          = Nat.min 10 (affectedServices (bodyFor scenario1 P1))
       /\ length (impactChain (bodyFor scenario1 P1))
          <= affectedServices (bodyFor scenario1 P1)
       /\ (affectedServices (bodyFor scenario1 P1)
           = length (impactChain (bodyFor scenario1 P1))
           <-> length (dependents scenario1 root) <= 10).
Proof.
  split; [reflexivity|].
  apply (C4_affected_services_uncapped
           scenario1 (Some "power") (Some "north") (bodyFor scenario1 P1)).
  - reflexivity.
  - vm_compute. reflexivity.
Defined.

(** C10: with unique unit ids and present, non-empty parameters, when some
    unit matches the type and the locations but nothing transitively
    depends on any matching unit, [GET /root-cause] does not fail: it
    answers with one of the matching units, affectedServices 0, an empty
    impactChain and an empty criticalPath. *)
Theorem C10_root_without_dependents
  (s : Store) (type locations : string) :
  type <> "" -> locations <> "" ->
  uniqueIds s = true ->
  candidates s type (Js.split "," locations) <> [] ->
  (forall c d, In c (candidates s type (Js.split "," locations)) ->
               ~ dependsTransitively s d (nid c)) ->
  exists root,
    In root (candidates s type (Js.split "," locations))
    /\ getRootCause s (Some type) (Some locations)
       = Json {| rootCause := properties root;
                 impactChain := [];
                 affectedServices := 0;
                 criticalPath := [] |}.
Proof.
  intros Ht Hl Hu Hne Hnone.
  rewrite (getRootCause_valid s type locations Ht Hl).
  destruct (rootResult s type (Js.split "," locations))
    as [|record rest] eqn:E.
  - apply rootResult_nil in E. contradiction.
  - apply rootResult_head in E. destruct E as (l1 & l2 & Ec & _).
    assert (In (fst record) (candidates s type (Js.split "," locations)))
      as Hc by (rewrite Ec; apply in_or_app; right; now left).
    exists (fst record). split; [assumption|].
    destruct (countDependents_zero s (fst record)) as [Hrows Hcount].
    { intros d. now apply Hnone. }
    apply candidates_In in Hc. destruct Hc as (Hin & Hlab & _).
    unfold bodyFor. rewrite (impactResult_ranked s _ Hu Hin Hlab).
    unfold ranked. rewrite Hrows, Hcount. reflexivity.
Qed.

Lemma C10_witness :
  "power" <> "" /\ "north" <> ""
  /\ uniqueIds twoPlants = true
  /\ exists root,
       In root (candidates twoPlants "power" (Js.split "," "north"))
       /\ getRootCause twoPlants (Some "power") (Some "north")
          = Json {| rootCause := properties root;
                    impactChain := [];
                    affectedServices := 0;
                    criticalPath := [] |}.
Proof.
  split; [discriminate|]. split; [discriminate|]. split; [reflexivity|].
  apply (C10_root_without_dependents twoPlants "power" "north").
  - discriminate.
  - discriminate.
  - reflexivity.
  - vm_compute. discriminate.
  - intros c d _ (w & Hw). destruct Hw as [r Hr|r ? ? Hr _]; exact Hr.
Defined.

End RootCauseAnswer.

Section TransitiveDependents.

Import Cypher Reach Routes Examples.

(** C5, as stated, fails on its last part.  In scenario 4 (the cycle
    A -> B -> C -> A with D -> A) the path A -> B -> C -> A uses three
    different relationships, so the pattern binds [dependent] to A itself:
    A is among its own dependents and its count is 4, not 3. *)
Lemma C5_root_counted_on_cycle :
  In unitA (dependents scenario4 unitA)
  /\ map (fun n => Props.id (properties n)) (dependents scenario4 unitA)
     = ["C"; "B"; "A"; "D"]
  /\ countDependents scenario4 unitA = 4.
Proof.
  split; [|split; reflexivity].
  vm_compute. right. right. left. reflexivity.
Qed.

(** C5 (amended): on every store, cyclic or not, the expansion of
    [(dependent)-[:DEPENDS_ON*]->(root)] is complete with the relationship
    count as its bound (more fuel gives the same rows); the distinct
    dependents list each node at most once and are exactly the nodes with a
    chain of relationships to the root; the count is their number; and the
    root is among them exactly when it lies on a directed cycle. *)
Theorem C5_dependents_finite_distinct_root_iff_cycle
  (s : Store) (root : Node) :
  (forall fuel, length (dependsOn s) <= fuel ->
     expandInto fuel (dependsOn s) (nid root) 0 = varLength s root)
  /\ NoDup (map nid (dependents s root))
  /\ (forall i, In i (map nid (dependents s root))
                <-> dependsTransitively s i (nid root))
  /\ countDependents s root = length (dependents s root)
  /\ (In (nid root) (map nid (dependents s root))
      <-> dependsTransitively s (nid root) (nid root)).
Proof.
  split.
  { intros fuel Hf. unfold varLength. apply expandInto_fuel; auto. }
  split; [apply dependents_NoDup|].
  split; [apply dependents_reach|].
  split; [apply countDependents_length | apply dependents_reach].
Qed.

End TransitiveDependents.

(** ** [GET /analyze-region] and [GET /critical] *)

Section Rankings.

Import Cypher Reach Routes Examples.

Lemma firstn_In {A : Type} (n : nat) (l : list A) (x : A) :
  In x (firstn n l) -> In x l.
Proof.
  intros H. rewrite <- (firstn_skipn n l). apply in_or_app. now left.
Qed.

Lemma StronglySorted_map {A B : Type} (f : A -> B) (R : B -> B -> Prop)
  (l : list A) :
  StronglySorted (fun a b => R (f a) (f b)) l -> StronglySorted R (map f l).
Proof.
  induction 1 as [|x t Hs IH Hx]; simpl; constructor.
  - assumption.
  - rewrite Forall_forall in *. intros y Hy.
    apply in_map_iff in Hy. destruct Hy as (z & <- & Hz). now apply Hx.
Qed.

Lemma filter_map_length {A B : Type} (f : A -> B) (p : B -> bool)
  (l : list A) :
  length (filter p (map f l)) = length (filter (fun a => p (f a)) l).
Proof.
  induction l as [|x t IH]; simpl; [reflexivity|].
  destruct (p (f x)); simpl; now rewrite IH.
Qed.

(** C7: for every store and every present locations parameter,
    [GET /analyze-region] answers with criticalUnits that are
    location-matching units, each with its count of distinct transitive
    dependents, all counts positive, sorted by descending count, at most 5
    (the 5 of the positive-count units, or all of them when fewer);
    totalUnits counts all location-matching units; vulnerabilities is empty
    when criticalUnits is, and otherwise holds the two findings, the number
    of critical units and the name of the top unit. *)
Theorem C7_region_ranking
  (s : Store) (region : option string) (locations : string) :
  let locationArray := Js.split "," locations in
  let matching (n : Node) :=
    hasLabel "InfrastructureUnit" n
    && IN (Props.location (properties n)) locationArray in
  exists body,
    getAnalyzeRegion s region (Some locations) = Json body
    /\ (forall u, In u (criticalUnits body) ->
          exists n,
            In n (nodes s) /\ matching n = true
            /\ props u = properties n
            /\ dependentCount u = length (dependents s n)
            /\ 0 < dependentCount u)
    /\ StronglySorted (fun a b => dependentCount b <= dependentCount a)
                      (criticalUnits body)
    /\ length (criticalUnits body) <= 5
    /\ length (criticalUnits body)
       = Nat.min 5
           (length (filter (fun n => Nat.ltb 0 (length (dependents s n)))
                           (filter matching (nodes s))))
    /\ totalUnits body = length (filter matching (nodes s))
    /\ (criticalUnits body = [] -> vulnerabilities body = [])
    /\ (forall top rest,
          criticalUnits body = top :: rest ->
          vulnerabilities body
          = [ (Js.numberToString (length (criticalUnits body))
               ++ " critical infrastructure units identified")%string;
              ("Single point of failure risk in "
               ++ Props.name (props top))%string ]).
Proof.
  intros locationArray matching.
  eexists. split; [reflexivity|]. cbn [criticalUnits totalUnits vulnerabilities].
  fold locationArray.
  set (mk := fun r : Node * nat =>
               {| props := properties (fst r); dependentCount := snd r |}).
  split.
  { intros u Hu. apply in_map_iff in Hu. destruct Hu as ([n c] & <- & Hr).
    unfold criticalResult, limit in Hr. apply firstn_In in Hr.
    apply sortBy_In in Hr. apply filter_In in Hr. destruct Hr as [Hr Hpos].
    apply in_map_iff in Hr. destruct Hr as (n' & E & Hn). injection E as -> <-.
    apply filter_In in Hn. destruct Hn as [Hn Hm].
    exists n. simpl in *. rewrite <- countDependents_length.
    apply Nat.ltb_lt in Hpos. auto. }
  split.
  { apply StronglySorted_map. unfold criticalResult, limit.
    apply StronglySorted_firstn. subst mk. simpl.
    apply (orderByDesc_sorted (@snd Node nat)). }
  split.
  { rewrite length_map. unfold criticalResult, limit.
    apply firstn_le_length. }
  split.
  { rewrite length_map. unfold criticalResult, limit, orderByDesc.
    rewrite length_firstn, sortBy_length, filter_map_length.
    unfold inRegion, matchUnits. fold matching.
    rewrite (filter_ext
               (fun a => Nat.ltb 0 (snd (a, countDependents s a)))
               (fun n => Nat.ltb 0 (length (dependents s n)))).
    - reflexivity.
    - intros n. cbn [snd]. now rewrite countDependents_length. }
  split; [reflexivity|]. split.
  - intros E. now rewrite E.
  - intros top rest E. now rewrite E.
Qed.

End Rankings.

Section GlobalRanking.

Import Cypher Reach Routes Examples.

Lemma distinctNames_In (seen l : list string) (x : string) :
  In x (distinctNames seen l) <-> In x l /\ ~ In x seen.
Proof.
  revert seen. induction l as [|y t IH]; intros seen; simpl.
  - tauto.
  - destruct (IN y seen) eqn:E.
    + apply IN_In in E. rewrite IH.
      split; [tauto|]. intros [[<-|H] Hs]; tauto.
    + assert (~ In y seen) as Hy.
      { intros H. apply IN_In in H. congruence. }
      simpl. rewrite IH. simpl.
      destruct (string_dec y x) as [<-|Hne]; tauto.
Qed.

Lemma distinctNames_NoDup (seen l : list string) :
  NoDup (distinctNames seen l).
Proof.
  revert seen. induction l as [|y t IH]; intros seen; simpl.
  - constructor.
  - destruct (IN y seen); [apply IH|].
    constructor; [|apply IH]. rewrite distinctNames_In. simpl. tauto.
Qed.

Lemma groupCount_In (keys : list string) (k : string) (c : nat) :
  In (k, c) (groupCount keys)
  <-> In k keys /\ c = length (filter (String.eqb k) keys).
Proof.
  unfold groupCount. rewrite in_map_iff. split.
  - intros (k' & E & H). injection E as -> <-.
    apply distinctNames_In in H. tauto.
  - intros [H ->]. exists k. split; [reflexivity|].
    apply distinctNames_In. simpl. tauto.
Qed.

Lemma groupCount_keys (keys : list string) :
  map fst (groupCount keys) = distinctNames [] keys.
Proof.
  unfold groupCount. rewrite map_map. simpl. apply map_id.
Qed.

Lemma incomingNames_In (s : Store) (nm : string) :
  In nm (incomingNames s)
  <-> exists n,
        In n (matchUnits s (fun _ => true))
        /\ Props.name (properties n) = nm
        /\ incoming s n <> [].
Proof.
  unfold incomingNames, matchIncoming. rewrite in_map_iff. split.
  - intros ([n x] & <- & H). apply in_flat_map in H.
    destruct H as (n' & Hn & H). apply in_map_iff in H.
    destruct H as (r & E & Hr). injection E as -> _.
    exists n. repeat split; try assumption.
    unfold incoming. intros E. rewrite E in Hr. contradiction.
  - intros (n & Hn & <- & Hne).
    destruct (incoming s n) as [|r t] eqn:E; [contradiction|].
    exists (n, startNode r). split; [reflexivity|].
    apply in_flat_map. exists n. split; [assumption|].
    apply in_map_iff. exists r. split; [reflexivity|].
    fold (incoming s n). rewrite E. now left.
Qed.

Lemma incomingNames_count (s : Store) (nm : string) :
  length (filter (String.eqb nm) (incomingNames s))
  = list_sum
      (map (fun n => length (incoming s n))
           (filter (fun n => String.eqb nm (Props.name (properties n)))
                   (matchUnits s (fun _ => true)))).
Proof.
  unfold incomingNames, matchIncoming.
  induction (matchUnits s (fun _ => true)) as [|n t IH]; [reflexivity|].
  cbn [flat_map]. rewrite map_app, filter_app, length_app, IH.
  fold (incoming s n). cbn [filter].
  assert (length
            (filter (String.eqb nm)
               (map (fun row : Node * Node =>
                       Props.name (properties (fst row)))
                  (map (fun r => (n, startNode r)) (incoming s n))))
          = if String.eqb nm (Props.name (properties n))
            then length (incoming s n) else 0) as ->.
  { induction (incoming s n) as [|r rs IHr]; simpl.
    - now destruct (String.eqb nm _).
    - destruct (String.eqb nm (Props.name (properties n))); simpl;
        now rewrite IHr. }
  destruct (String.eqb nm (Props.name (properties n))); reflexivity.
Qed.

(** C6, as stated, fails.  In scenario 1 the units P2 and S1 have no
    direct dependents; the query matches only units with an entering
    [DEPENDS_ON] relationship, so the ranking has a single entry.  And the
    rows are grouped by [n.name]: in [sameName] the two units called
    "Pump", with one direct dependent each, share one entry of count 2. *)
Lemma C6_units_without_dependents_missing :
  In P2 (nodes scenario1)
  /\ hasLabel "InfrastructureUnit" P2 = true
  /\ ~ In (Props.name (properties P2)) (map name (getCritical scenario1))
  /\ getCritical scenario1 = [ {| name := "Plant 1"; dependencyCount := 2 |} ]
  /\ length (incoming sameName pumpA) = 1
  /\ length (incoming sameName pumpB) = 1
  /\ getCritical sameName = [ {| name := "Pump"; dependencyCount := 2 |} ].
Proof.
  split; [simpl; tauto|]. split; [reflexivity|].
  split; [|repeat split].
  vm_compute. intros [H|[]]. discriminate.
Qed.

(** C6 (amended): [GET /critical] lists one entry per distinct name among
    the units that have at least one entering [DEPENDS_ON] relationship;
    the entry pairs the name with the number of [DEPENDS_ON] relationships
    that enter the units of that name (direct dependents only, each
    relationship counted once); the entries are sorted by descending count
    and none is cut off. *)
Theorem C6_global_ranking_of_depended_on_names (s : Store) :
  let units := matchUnits s (fun _ => true) in
  (forall nm,
     In nm (map name (getCritical s))
     <-> exists n, In n units
                   /\ Props.name (properties n) = nm
                   /\ incoming s n <> [])
  /\ (forall row, In row (getCritical s) ->
        dependencyCount row
        = list_sum
            (map (fun n => length (incoming s n))
                 (filter (fun n => String.eqb (name row)
                                     (Props.name (properties n)))
                         units)))
  /\ NoDup (map name (getCritical s))
  /\ StronglySorted (fun a b => dependencyCount b <= dependencyCount a)
                    (getCritical s).
Proof.
  intros units. subst units. unfold getCritical. fold (incomingNames s).
  set (mk := fun r : string * nat =>
               {| name := fst r; dependencyCount := snd r |}).
  assert (forall l : list (string * nat), map name (map mk l) = map fst l)
    as Hnames.
  { intros l. rewrite map_map. reflexivity. }
  assert (Permutation
            (map fst (orderByDesc snd (groupCount (incomingNames s))))
            (distinctNames [] (incomingNames s))) as Hperm.
  { rewrite <- groupCount_keys. apply Permutation_map, sortBy_perm. }
  split.
  { intros nm. rewrite Hnames, <- incomingNames_In.
    split; intros H.
    - apply (Permutation_in _ Hperm) in H.
      apply distinctNames_In in H. tauto.
    - apply (Permutation_in _ (Permutation_sym Hperm)).
      apply distinctNames_In. simpl. tauto. }
  split.
  { intros row H. apply in_map_iff in H. destruct H as ([k c] & <- & H).
    apply sortBy_In in H. apply groupCount_In in H. destruct H as [_ ->].
    simpl. apply incomingNames_count. }
  split.
  { rewrite Hnames.
    apply (Permutation_NoDup (Permutation_sym Hperm)).
    apply distinctNames_NoDup. }
  apply StronglySorted_map. subst mk. simpl.
  apply (orderByDesc_sorted (@snd string nat)).
Qed.

End GlobalRanking.

Section Validation.

Import Cypher Reach Routes Examples.

(** C8: [GET /root-cause] rejects an absent or empty locations parameter
    with its 400 answer before any query runs, but [GET /analyze-region]
    does not: an absent parameter ends in the generic 500 answer of the
    [catch] block, and an empty one is split into the one-element list
    [[""]] and both queries run on it. *)
Theorem C8_region_does_not_reject_empty_locations
  (s : Store) (type region : option string) :
  getRootCause s type None = missingParameter
  /\ getRootCause s type (Some "") = missingParameter
  /\ getAnalyzeRegion s region None
     = Status 500
         {| error := "Analysis failed";
            details :=
              Some "Cannot read properties of undefined (reading 'split')" |}
  /\ exists body,
       getAnalyzeRegion s region (Some "") = Json body
       /\ totalUnits body = length (inRegion s [""]).
Proof.
  split.
  { unfold getRootCause. simpl. now rewrite orb_true_r. }
  split.
  { unfold getRootCause. simpl. now rewrite orb_true_r. }
  split; [reflexivity|].
  eexists. split; reflexivity.
Qed.

End Validation.

(** ** The same snapshot in another scan order *)

Section ScanOrder.

Import Cypher Reach Routes Examples.

Lemma filter_perm {A : Type} (p : A -> bool) (l l' : list A) :
  Permutation l l' -> Permutation (filter p l) (filter p l').
Proof.
  induction 1 as [|x l l' H IH|x y l|l l' l'' H1 IH1 H2 IH2]; simpl.
  - constructor.
  - destruct (p x); [now apply perm_skip | assumption].
  - destruct (p x), (p y); try apply Permutation_refl. apply perm_swap.
  - eapply Permutation_trans; eassumption.
Qed.

Lemma flat_map_perm_pointwise {A B : Type} (f g : A -> list B)
  (l : list A) :
  (forall a, Permutation (f a) (g a)) ->
  Permutation (flat_map f l) (flat_map g l).
Proof.
  intros Hfg. induction l as [|z t IHt]; simpl; [constructor|].
  now apply Permutation_app.
Qed.

Lemma flat_map_perm_list {A B : Type} (f : A -> list B) (l l' : list A) :
  Permutation l l' -> Permutation (flat_map f l) (flat_map f l').
Proof.
  induction 1 as [|x l l' H IH|x y l|l l' l'' H1 IH1 H2 IH2]; simpl.
  - constructor.
  - now apply Permutation_app_head.
  - rewrite !app_assoc. apply Permutation_app_tail, Permutation_app_comm.
  - eapply Permutation_trans; eassumption.
Qed.

Lemma flat_map_perm {A B : Type} (f g : A -> list B) (l l' : list A) :
  Permutation l l' -> (forall a, Permutation (f a) (g a)) ->
  Permutation (flat_map f l) (flat_map g l').
Proof.
  intros H Hfg. eapply Permutation_trans.
  - apply flat_map_perm_list. exact H.
  - now apply flat_map_perm_pointwise.
Qed.

Lemma sorted_desc_perm_eq (l1 l2 : list nat) :
  StronglySorted (fun a b => b <= a) l1 ->
  StronglySorted (fun a b => b <= a) l2 ->
  Permutation l1 l2 -> l1 = l2.
Proof.
  intros H1. revert l2. induction H1 as [|x t Hs IH Hx]; intros l2 H2 Hp.
  - apply Permutation_nil in Hp. now subst.
  - destruct H2 as [|y t2 Hs2 Hy].
    + apply Permutation_sym, Permutation_nil in Hp. discriminate.
    + assert (x = y) as <-.
      { rewrite Forall_forall in Hx, Hy.
        assert (In y (x :: t)) as Hyin
          by (apply (Permutation_in _ (Permutation_sym Hp)); now left).
        assert (In x (y :: t2)) as Hxin
          by (apply (Permutation_in _ Hp); now left).
        destruct Hyin as [->|Hyin]; [reflexivity|].
        destruct Hxin as [->|Hxin]; [reflexivity|].
        specialize (Hx _ Hyin). specialize (Hy _ Hxin). lia. }
      f_equal. apply IH; [assumption|].
      eapply Permutation_cons_inv; eassumption.
Qed.

Lemma sameSnapshot_sym (s1 s2 : Store) :
  sameSnapshot s1 s2 -> sameSnapshot s2 s1.
Proof. intros [H1 H2]. split; now apply Permutation_sym. Qed.

Lemma dependsOn_perm (s1 s2 : Store) :
  sameSnapshot s1 s2 -> Permutation (dependsOn s1) (dependsOn s2).
Proof. intros [_ H]. now apply filter_perm. Qed.

Lemma reach_same (s1 s2 : Store) (i r : nat) :
  sameSnapshot s1 s2 ->
  dependsTransitively s1 i r -> dependsTransitively s2 i r.
Proof.
  intros H (w & Hw). exists w. eapply walk_incl; [exact Hw|].
  intros x. apply Permutation_in. now apply dependsOn_perm.
Qed.

(** The count of distinct dependents does not depend on the scan order. *)
Lemma count_same (s1 s2 : Store) (n : Node) :
  sameSnapshot s1 s2 -> countDependents s1 n = countDependents s2 n.
Proof.
  intros H. rewrite !countDependents_length.
  apply distinct_same_length. intros i. rewrite !varLength_reach.
  split; apply reach_same; [assumption | now apply sameSnapshot_sym].
Qed.

Lemma matchUnits_perm (s1 s2 : Store) (p : Node -> bool) :
  sameSnapshot s1 s2 -> Permutation (matchUnits s1 p) (matchUnits s2 p).
Proof. intros [H _]. now apply filter_perm. Qed.

Lemma getRootCause_status_same (s1 s2 : Store)
  (type locations : option string) (code : nat) (e : ErrorBody) :
  sameSnapshot s1 s2 ->
  getRootCause s1 type locations = Status code e ->
  getRootCause s2 type locations = Status code e.
Proof.
  intros H. unfold getRootCause.
  destruct (Js.falsy type || Js.falsy locations); [auto|].
  destruct (rootResult s1 _ _) as [|r1 t1] eqn:E1; [|discriminate].
  apply rootResult_nil in E1.
  assert (rootResult s2 (paramValue type)
            (Js.split "," (paramValue locations)) = []) as ->; [|auto].
  apply rootResult_nil. apply Permutation_nil.
  rewrite <- E1. unfold candidates. now apply matchUnits_perm.
Qed.

Lemma countedRows_perm (s1 s2 : Store) (l1 l2 : list Node) :
  sameSnapshot s1 s2 -> Permutation l1 l2 ->
  Permutation (map (fun n => (n, countDependents s1 n)) l1)
              (map (fun n => (n, countDependents s2 n)) l2).
Proof.
  intros H Hp.
  rewrite (map_ext (fun n => (n, countDependents s1 n))
                   (fun n => (n, countDependents s2 n))).
  - now apply Permutation_map.
  - intros n. now rewrite (count_same s1 s2 n H).
Qed.

Lemma criticalResult_counts_same (s1 s2 : Store) (locations : list string) :
  sameSnapshot s1 s2 ->
  map snd (criticalResult s1 locations)
  = map snd (criticalResult s2 locations).
Proof.
  intros H. unfold criticalResult, limit. rewrite <- !firstn_map. f_equal.
  apply sorted_desc_perm_eq.
  - apply StronglySorted_map, (orderByDesc_sorted (@snd Node nat)).
  - apply StronglySorted_map, (orderByDesc_sorted (@snd Node nat)).
  - apply Permutation_map.
    eapply Permutation_trans; [apply sortBy_perm|].
    eapply Permutation_trans; [|apply Permutation_sym, sortBy_perm].
    apply filter_perm, countedRows_perm; [assumption|].
    unfold inRegion. now apply matchUnits_perm.
Qed.

Lemma incomingNames_perm (s1 s2 : Store) :
  sameSnapshot s1 s2 ->
  Permutation (incomingNames s1) (incomingNames s2).
Proof.
  intros H. unfold incomingNames, matchIncoming.
  apply Permutation_map, flat_map_perm.
  - now apply matchUnits_perm.
  - intros n. apply Permutation_map, filter_perm. now apply dependsOn_perm.
Qed.

Lemma groupCount_perm (k1 k2 : list string) :
  Permutation k1 k2 -> Permutation (groupCount k1) (groupCount k2).
Proof.
  intros H.
  assert (forall k, NoDup (groupCount k)) as Hnd.
  { intros k. apply (NoDup_map_inv fst). rewrite groupCount_keys.
    apply distinctNames_NoDup. }
  apply NoDup_Permutation; try apply Hnd.
  intros [k c]. rewrite !groupCount_In. split; intros [Hin ->]; split.
  - now apply (Permutation_in _ H).
  - apply Permutation_length, filter_perm. assumption.
  - now apply (Permutation_in _ (Permutation_sym H)).
  - apply Permutation_length, filter_perm. now apply Permutation_sym.
Qed.

Lemma getCritical_perm (s1 s2 : Store) :
  sameSnapshot s1 s2 -> Permutation (getCritical s1) (getCritical s2).
Proof.
  intros H. unfold getCritical. apply Permutation_map.
  eapply Permutation_trans; [apply sortBy_perm|].
  eapply Permutation_trans; [|apply Permutation_sym, sortBy_perm].
  apply groupCount_perm. fold (incomingNames s1) (incomingNames s2).
  now apply incomingNames_perm.
Qed.

End ScanOrder.

Section Determinism.

Import Cypher Reach Routes Examples.

(** C9, as stated, fails.  [twoPlants] and [twoPlantsSwapped] hold the same
    two units and no relationship; they differ in scan order only.  The
    same request gets P2 as root cause from one and P1 from the other,
    because both units have count 0 and the query has no further sort
    key. *)
Lemma C9_answer_follows_scan_order :
  sameSnapshot twoPlants twoPlantsSwapped
  /\ exists b1 b2,
       getRootCause twoPlants (Some "power") (Some "north") = Json b1
       /\ getRootCause twoPlantsSwapped (Some "power") (Some "north")
          = Json b2
       /\ rootCause b1 = properties P2
       /\ rootCause b2 = properties P1
       /\ b1 <> b2.
Proof.
  split.
  { split; [apply perm_swap | apply perm_nil]. }
  eexists. eexists.
  split; [vm_compute; reflexivity|]. split; [vm_compute; reflexivity|].
  split; [reflexivity|]. split; [reflexivity|]. discriminate.
Qed.

(** C9 (amended): the answers are determined by the snapshot up to the
    order of rows with equal sort keys.  For two stores that hold the same
    units and relationships, the same request gets the same error answer
    from both or a success from both; the successes agree on
    affectedServices, and on rootCause whenever only units with the
    root's properties reach the maximal count; [GET /analyze-region]
    agrees on totalUnits and on the sequence of dependentCount values;
    [GET /critical] returns the same entries with the same sequence of
    counts.  Which of several equal-key rows comes first follows the scan
    order. *)
Theorem C9_answers_determined_up_to_tie_order
  (s1 s2 : Store) (type locations region : option string) :
  sameSnapshot s1 s2 ->
  (forall code e,
     getRootCause s1 type locations = Status code e
     <-> getRootCause s2 type locations = Status code e)
  /\ (forall b1 b2,
        getRootCause s1 type locations = Json b1 ->
        getRootCause s2 type locations = Json b2 ->
        affectedServices b1 = affectedServices b2
        /\ ((forall c,
               In c (candidates s1 (paramValue type)
                       (Js.split "," (paramValue locations))) ->
               countDependents s1 c = affectedServices b1 ->
               properties c = rootCause b1) ->
            rootCause b2 = rootCause b1))
  /\ (forall code e,
        getAnalyzeRegion s1 region locations = Status code e
        <-> getAnalyzeRegion s2 region locations = Status code e)
  /\ (forall b1 b2,
        getAnalyzeRegion s1 region locations = Json b1 ->
        getAnalyzeRegion s2 region locations = Json b2 ->
        totalUnits b1 = totalUnits b2
        /\ map dependentCount (criticalUnits b1)
           = map dependentCount (criticalUnits b2))
  /\ Permutation (getCritical s1) (getCritical s2)
  /\ map dependencyCount (getCritical s1)
     = map dependencyCount (getCritical s2).
Proof.
  intros H. pose proof (sameSnapshot_sym _ _ H) as H'.
  split.
  { intros code e. split; now apply getRootCause_status_same. }
  split.
  { intros b1 b2 E1 E2.
    apply getRootCause_max in E1, E2.
    destruct E1 as (r1 & Hc1 & -> & Hmax1).
    destruct E2 as (r2 & Hc2 & -> & Hmax2).
    assert (Permutation
              (candidates s1 (paramValue type)
                 (Js.split "," (paramValue locations)))
              (candidates s2 (paramValue type)
                 (Js.split "," (paramValue locations)))) as Hp
      by (apply matchUnits_perm; assumption).
    pose proof (Permutation_in _ Hp Hc1) as Hc12.
    pose proof (Permutation_in _ (Permutation_sym Hp) Hc2) as Hc21.
    specialize (Hmax1 _ Hc21). specialize (Hmax2 _ Hc12).
    pose proof (count_same s1 s2 r1 H) as Hr1.
    pose proof (count_same s1 s2 r2 H) as Hr2.
    assert (countDependents s1 r1 = countDependents s2 r2) as Heq by lia.
    cbn [bodyFor affectedServices rootCause].
    split; [assumption|].
    intros Hunique. apply Hunique; [assumption | lia]. }
  split.
  { intros code e. unfold getAnalyzeRegion.
    destruct locations; [split; discriminate | tauto]. }
  split.
  { intros b1 b2. unfold getAnalyzeRegion.
    destruct locations as [locs|]; [|discriminate].
    intros E1 E2. injection E1 as <-. injection E2 as <-.
    cbn [totalUnits criticalUnits]. split.
    - unfold totalResult, inRegion.
      apply Permutation_length. now apply matchUnits_perm.
    - rewrite !map_map.
      exact (criticalResult_counts_same s1 s2 (Js.split "," locs) H). }
  split; [now apply getCritical_perm|].
  unfold getCritical. rewrite !map_map. cbn [dependencyCount].
  apply sorted_desc_perm_eq.
  - apply StronglySorted_map, (orderByDesc_sorted (@snd string nat)).
  - apply StronglySorted_map, (orderByDesc_sorted (@snd string nat)).
  - apply Permutation_map.
    eapply Permutation_trans; [apply sortBy_perm|].
    eapply Permutation_trans; [|apply Permutation_sym, sortBy_perm].
    apply groupCount_perm. fold (incomingNames s1) (incomingNames s2).
    now apply incomingNames_perm.
Qed.

Lemma C9_witness :
  sameSnapshot twoPlants twoPlantsSwapped
  /\ (forall code e,
        getRootCause twoPlants (Some "power") (Some "north")
        = Status code e
        <-> getRootCause twoPlantsSwapped (Some "power") (Some "north")
            = Status code e)
  /\ (forall b1 b2,
        getRootCause twoPlants (Some "power") (Some "north") = Json b1 ->
        getRootCause twoPlantsSwapped (Some "power") (Some "north")
        = Json b2 ->
        affectedServices b1 = affectedServices b2
        /\ ((forall c,
               In c (candidates twoPlants (paramValue (Some "power"))
                       (Js.split "," (paramValue (Some "north")))) ->
               countDependents twoPlants c = affectedServices b1 ->
               properties c = rootCause b1) ->
            rootCause b2 = rootCause b1))
  /\ (forall code e,
        getAnalyzeRegion twoPlants None (Some "north") = Status code e
        <-> getAnalyzeRegion twoPlantsSwapped None (Some "north")
            = Status code e)
  /\ (forall b1 b2,
        getAnalyzeRegion twoPlants None (Some "north") = Json b1 ->
        getAnalyzeRegion twoPlantsSwapped None (Some "north") = Json b2 ->
        totalUnits b1 = totalUnits b2
        /\ map dependentCount (criticalUnits b1)
           = map dependentCount (criticalUnits b2))
  /\ Permutation (getCritical twoPlants) (getCritical twoPlantsSwapped)
  /\ map dependencyCount (getCritical twoPlants)
     = map dependencyCount (getCritical twoPlantsSwapped).
Proof.
  assert (sameSnapshot twoPlants twoPlantsSwapped) as H.
  { split; [apply perm_swap | apply perm_nil]. }
  split; [exact H|].
  exact (C9_answers_determined_up_to_tie_order
           twoPlants twoPlantsSwapped (Some "power") (Some "north") None H).
Defined.

End Determinism.

(* ================================================================== *)
(** * Part IV. Further properties of the handlers and of the page      *)
(* ================================================================== *)

(** ** Bounds and direct dependents *)

Section PathBounds.

Import Cypher Reach Routes Examples.

Lemma expandInto_bounds (fuel : nat) (avail : list Rel) (c k : nat)
  (n : Node) (m : nat) :
  In (n, m) (expandInto fuel avail c k) ->
  k < m <= k + length avail.
Proof.
  revert avail c k. induction fuel as [|f IH]; intros avail c k H;
    simpl in H; [contradiction|].
  apply in_flat_map in H. destruct H as (p & Hp & H).
  destruct (picks_sound _ _ Hp) as (l1 & l2 & Ha & Hrest).
  destruct (Nat.eqb (nid (endNode (fst p))) c); [|contradiction].
  assert (length avail = S (length (snd p))) as Hlen.
  { rewrite Ha, Hrest, !length_app. simpl. lia. }
  destruct H as [H|H].
  - injection H as _ <-. lia.
  - apply IH in H. lia.
Qed.

Lemma walk_start (E : list Rel) (c d : nat) (w : list Rel) :
  walk E c d w -> exists r, In r E /\ nid (startNode r) = d.
Proof.
  induction 1 as [r Hr|r start w Hr Hw IH].
  - exists r. auto.
  - exact IH.
Qed.

Lemma walk_end (E : list Rel) (c d : nat) (w : list Rel) :
  walk E c d w -> exists r, In r E /\ nid (endNode r) = c.
Proof. destruct 1 as [r Hr|r start w Hr Hw]; exists r; auto. Qed.

(** X1: a row of [(dependent)-[:DEPENDS_ON*]->(root)] has a length between
    1 and the number of [DEPENDS_ON] relationships of the store, and the
    count of distinct dependents of a node never exceeds that number (so it
    is 0 in a store without such relationships). *)
Theorem X1_depth_and_count_bounded_by_relationships
  (s : Store) (root : Node) :
  (forall n m, In (n, m) (varLength s root) ->
     1 <= m <= length (dependsOn s))
  /\ countDependents s root <= length (dependsOn s).
Proof.
  split.
  - intros n m H. apply expandInto_bounds in H. lia.
  - rewrite countDependents_length.
    rewrite <- (length_map nid (dependents s root)).
    rewrite <- (length_map (fun r => nid (startNode r)) (dependsOn s)).
    apply NoDup_incl_length; [apply dependents_NoDup|].
    intros i Hi. apply dependents_reach in Hi. destruct Hi as (w & Hw).
    apply walk_start in Hw. destruct Hw as (r & Hr & <-).
    apply in_map_iff. exists r. auto.
Qed.

Lemma positive_count_iff_incoming (s : Store) (n : Node) :
  0 < countDependents s n <-> incoming s n <> [].
Proof.
  rewrite countDependents_length. split.
  - intros H. destruct (dependents s n) as [|d t] eqn:E; [simpl in H; lia|].
    assert (dependsTransitively s (nid d) (nid n)) as (w & Hw).
    { apply dependents_reach. rewrite E. now left. }
    apply walk_end in Hw. destruct Hw as (r & Hr & Hend).
    intros Hnone.
    assert (In r (incoming s n)) as Hin.
    { unfold incoming. apply filter_In. split; [assumption|].
      now apply Nat.eqb_eq. }
    rewrite Hnone in Hin. contradiction.
  - intros H. destruct (incoming s n) as [|r t] eqn:E; [contradiction|].
    assert (In r (incoming s n)) as Hin by (rewrite E; now left).
    unfold incoming in Hin. apply filter_In in Hin.
    destruct Hin as [Hr Hend]. apply Nat.eqb_eq in Hend.
    assert (In (nid (startNode r)) (map nid (dependents s n))) as Hd.
    { apply dependents_reach. exists [r]. rewrite <- Hend.
      now apply walk_last. }
    destruct (dependents s n); [contradiction | simpl; lia].
Qed.

Lemma getCritical_names (s : Store) (nm : string) :
  In nm (map name (getCritical s)) <-> In nm (incomingNames s).
Proof.
  unfold getCritical. fold (incomingNames s). rewrite map_map. simpl.
  change (In nm (map fst (orderByDesc snd (groupCount (incomingNames s))))
          <-> In nm (incomingNames s)).
  assert (Permutation
            (map fst (orderByDesc snd (groupCount (incomingNames s))))
            (distinctNames [] (incomingNames s))) as Hperm.
  { rewrite <- groupCount_keys. apply Permutation_map, sortBy_perm. }
  split; intros H.
  - apply (Permutation_in _ Hperm) in H. apply distinctNames_In in H. tauto.
  - apply (Permutation_in _ (Permutation_sym Hperm)).
    apply distinctNames_In. simpl. tauto.
Qed.

(** X2: a node has a positive count of transitive dependents (the test
    [dependentCount > 0] of [GET /analyze-region]) exactly when some
    [DEPENDS_ON] relationship enters it directly (the pattern of
    [GET /critical]); hence every unit that [GET /analyze-region] can list
    as critical has its name among the entries of [GET /critical]. *)
Theorem X2_critical_in_region_iff_directly_depended_on
  (s : Store) (n : Node) :
  (0 < countDependents s n <-> incoming s n <> [])
  /\ (In n (nodes s) -> hasLabel "InfrastructureUnit" n = true ->
      0 < countDependents s n ->
      In (Props.name (properties n)) (map name (getCritical s))).
Proof.
  split; [apply positive_count_iff_incoming|].
  intros Hin Hlab Hpos. apply getCritical_names, incomingNames_In.
  exists n. split; [apply matchUnits_In; auto|].
  split; [reflexivity|]. now apply positive_count_iff_incoming.
Qed.

Lemma X2_witness :
  In P1 (nodes scenario1)
  /\ hasLabel "InfrastructureUnit" P1 = true
  /\ 0 < countDependents scenario1 P1
  /\ In (Props.name (properties P1)) (map name (getCritical scenario1)).
Proof.
  assert (In P1 (nodes scenario1)) as H1 by (simpl; tauto).
  assert (0 < countDependents scenario1 P1) as H2 by (vm_compute; lia).
  split; [exact H1|]. split; [reflexivity|]. split; [exact H2|].
  exact (proj2 (X2_critical_in_region_iff_directly_depended_on
                  scenario1 P1) H1 eq_refl H2).
Defined.

End PathBounds.

(** ** What the answers hold, whatever the store *)

Section Answers.

Import Cypher Reach Routes Network Examples.

Lemma getRootCause_Json_located (s : Store) (type locations : option string)
  (body : RootCauseBody) :
  getRootCause s type locations = Json body ->
  exists l,
    locations = Some l
    /\ exists root,
         In root (candidates s (paramValue type) (Js.split "," l))
         /\ body = bodyFor s root.
Proof.
  intros H.
  destruct locations as [l|].
  - exists l. split; [reflexivity|].
    apply getRootCause_max in H. destruct H as (root & Hc & Hb & _).
    exists root. auto.
  - unfold getRootCause in H. simpl in H.
    rewrite orb_true_r in H. discriminate.
Qed.

(** X3: the root cause of every successful [GET /root-cause] answer is an
    [InfrastructureUnit] of the store whose type is the requested type and
    whose location is one of the requested locations; the request carried
    both parameters, non-empty; and criticalPath has as many entries as
    impactChain, at most 10. *)
Theorem X3_root_cause_matches_request
  (s : Store) (type locations : option string) (body : RootCauseBody) :
  getRootCause s type locations = Json body ->
  (exists t l, type = Some t /\ locations = Some l /\ t <> "" /\ l <> "")
  /\ (exists root,
        In root (nodes s)
        /\ hasLabel "InfrastructureUnit" root = true
        /\ rootCause body = properties root)
  /\ Props.type (rootCause body) = paramValue type
  /\ In (Props.location (rootCause body))
        (Js.split "," (paramValue locations))
  /\ length (criticalPath body) = length (impactChain body)
  /\ length (impactChain body) <= 10.
Proof.
  intros H. split.
  { unfold getRootCause in H.
    destruct type as [t|], locations as [l|]; simpl in H;
      try discriminate;
      try (destruct (String.eqb t ""); discriminate).
    exists t, l.
    destruct (String.eqb t "") eqn:Et; [discriminate|].
    destruct (String.eqb l "") eqn:El; [discriminate|].
    apply String.eqb_neq in Et, El. auto. }
  apply getRootCause_max in H. destruct H as (root & Hc & -> & _).
  apply candidates_In in Hc. destruct Hc as (Hin & Hlab & Hty & Hloc).
  split; [exists root; auto|]. split; [assumption|]. split; [assumption|].
  unfold bodyFor. cbn [criticalPath impactChain]. split.
  - now rewrite !length_map.
  - rewrite length_map. apply firstn_le_length.
Qed.

Lemma X3_witness :
  getRootCause scenario1 (Some "power") (Some "north")
  = Json (bodyFor scenario1 P1)
  /\ Props.type (rootCause (bodyFor scenario1 P1)) = "power"
  /\ In (Props.location (rootCause (bodyFor scenario1 P1)))
        (Js.split "," "north").
Proof.
  assert (getRootCause scenario1 (Some "power") (Some "north")
          = Json (bodyFor scenario1 P1)) as H by (vm_compute; reflexivity).
  split; [exact H|].
  destruct (X3_root_cause_matches_request
              scenario1 (Some "power") (Some "north") _ H)
    as (_ & _ & Hty & Hloc & _).
  split; [exact Hty | exact Hloc].
Defined.

Lemma orderByDesc_head_max {A : Type} (key : A -> nat) (l : list A)
  (x : A) :
  In x l ->
  exists top rest,
    orderByDesc key l = top :: rest /\ key x <= key top.
Proof.
  intros Hin.
  pose proof (orderByDesc_sorted key l) as Hs.
  assert (In x (orderByDesc key l)) as Hx by (now apply sortBy_In).
  destruct (orderByDesc key l) as [|top rest]; [contradiction|].
  exists top, rest. split; [reflexivity|].
  destruct Hx as [->|Hx]; [lia|].
  inversion Hs as [|? ? _ Hall]; subst.
  rewrite Forall_forall in Hall. now apply Hall.
Qed.

(** X4: the region analysis dominates the root-cause analysis of the same
    locations.  If [GET /root-cause] finds a root cause with at least one
    affected service, then [GET /analyze-region] with the same locations
    parameter lists at least one critical unit, its top unit has at least
    as many dependents, and totalUnits is at least 1. *)
Theorem X4_region_top_dominates_root_cause
  (s : Store) (type locations region : option string)
  (body : RootCauseBody) :
  getRootCause s type locations = Json body ->
  0 < affectedServices body ->
  exists regionBody top rest,
    getAnalyzeRegion s region locations = Json regionBody
    /\ criticalUnits regionBody = top :: rest
    /\ affectedServices body <= dependentCount top
    /\ 1 <= totalUnits regionBody.
Proof.
  intros H Hpos.
  destruct (getRootCause_Json_located s type locations body H)
    as (l & -> & root & Hc & ->).
  cbn [bodyFor affectedServices] in *.
  assert (In root (inRegion s (Js.split "," l))) as Hreg.
  { apply candidates_In in Hc. destruct Hc as (Hin & Hlab & _ & Hloc).
    apply matchUnits_In. rewrite IN_In. auto. }
  set (rows := filter (fun row : Node * nat => Nat.ltb 0 (snd row))
                 (map (fun n => (n, countDependents s n))
                      (inRegion s (Js.split "," l)))).
  assert (In (root, countDependents s root) rows) as Hrow.
  { apply filter_In. split.
    - apply in_map_iff. exists root. auto.
    - now apply Nat.ltb_lt. }
  destruct (orderByDesc_head_max (@snd Node nat) rows _ Hrow)
    as (top & rest & Hsort & Hle).
  eexists. exists {| props := properties (fst top);
                     dependentCount := snd top |}.
  eexists. split; [reflexivity|].
  cbn [criticalUnits totalUnits]. unfold criticalResult, limit.
  fold rows. rewrite Hsort. cbn [firstn map].
  split; [reflexivity|]. split; [exact Hle|].
  unfold totalResult. destruct (inRegion s (Js.split "," l));
    [contradiction | simpl; lia].
Qed.

Lemma X4_witness :
  getRootCause scenario1 (Some "power") (Some "north")
  = Json (bodyFor scenario1 P1)
  /\ 0 < affectedServices (bodyFor scenario1 P1)
  /\ exists regionBody top rest,
       getAnalyzeRegion scenario1 None (Some "north") = Json regionBody
       /\ criticalUnits regionBody = top :: rest
       /\ affectedServices (bodyFor scenario1 P1) <= dependentCount top
       /\ 1 <= totalUnits regionBody.
Proof.
  assert (getRootCause scenario1 (Some "power") (Some "north")
          = Json (bodyFor scenario1 P1)) as H by (vm_compute; reflexivity).
  assert (0 < affectedServices (bodyFor scenario1 P1)) as Hpos
    by (vm_compute; lia).
  split; [exact H|]. split; [exact Hpos|].
  exact (X4_region_top_dominates_root_cause
           scenario1 (Some "power") (Some "north") None _ H Hpos).
Defined.

Lemma IN_same_members (l1 l2 : list string) (x : string) :
  (forall y, In y l1 <-> In y l2) -> IN x l1 = IN x l2.
Proof.
  intros H. destruct (IN x l1) eqn:E1, (IN x l2) eqn:E2; try reflexivity.
  - apply IN_In, H, IN_In in E1. congruence.
  - apply IN_In, H, IN_In in E2. congruence.
Qed.

(** X5: only the set of locations in the parameter matters.  Two
    locations parameters that split into lists with the same members get
    the same [GET /analyze-region] answer, and, when both are non-empty,
    the same successful [GET /root-cause] answers and an error of the same
    status (the 404 text repeats the list as it was written). *)
Theorem X5_locations_order_and_repetition_irrelevant
  (s : Store) (type region : option string) (l1 l2 : string) :
  (forall x, In x (Js.split "," l1) <-> In x (Js.split "," l2)) ->
  getAnalyzeRegion s region (Some l1) = getAnalyzeRegion s region (Some l2)
  /\ (l1 <> "" -> l2 <> "" ->
      (forall body,
         getRootCause s type (Some l1) = Json body
         <-> getRootCause s type (Some l2) = Json body)
      /\ (forall code e,
            getRootCause s type (Some l1) = Status code e ->
            exists e', getRootCause s type (Some l2) = Status code e')).
Proof.
  intros Hsame.
  assert (forall p : Node -> bool,
            matchUnits s (fun n => p n
                            && IN (Props.location (properties n))
                                  (Js.split "," l1))
            = matchUnits s (fun n => p n
                              && IN (Props.location (properties n))
                                    (Js.split "," l2))) as Hmatch.
  { intros p. unfold matchUnits. apply filter_ext. intros n.
    now rewrite (IN_same_members _ _ _ Hsame). }
  split.
  - unfold getAnalyzeRegion, criticalResult, totalResult, inRegion.
    pose proof (Hmatch (fun _ => true)) as Hm. simpl in Hm.
    now rewrite Hm.
  - intros H1 H2.
    assert (forall t, rootResult s t (Js.split "," l1)
                      = rootResult s t (Js.split "," l2)) as Hroot.
    { intros t. unfold rootResult, candidates. now rewrite Hmatch. }
    unfold getRootCause. cbn [Js.falsy paramValue].
    apply String.eqb_neq in H1, H2. rewrite H1, H2, !orb_false_r.
    destruct (Js.falsy type).
    + split; [tauto|]. intros code e H. now exists e.
    + rewrite Hroot.
      destruct (rootResult s (paramValue type) (Js.split "," l2)).
      * split; [split; discriminate|]. intros code e H.
        injection H as <- _. eexists. reflexivity.
      * split; [tauto|]. discriminate.
Qed.

Lemma X5_witness :
  (forall x, In x (Js.split "," "north,south")
             <-> In x (Js.split "," "south,north,north"))
  /\ getAnalyzeRegion scenario1 None (Some "north,south")
     = getAnalyzeRegion scenario1 None (Some "south,north,north").
Proof.
  assert (forall x, In x (Js.split "," "north,south")
                    <-> In x (Js.split "," "south,north,north")) as H.
  { intros x. simpl. tauto. }
  split; [exact H|].
  exact (proj1 (X5_locations_order_and_repetition_irrelevant
                  scenario1 None None "north,south" "south,north,north" H)).
Defined.

Lemma split_no_separator (c : ascii) (str x : string) :
  In x (Js.split c str) -> hasChar c x = false.
Proof.
  revert x. induction str as [|d r IH]; intros x H; simpl in H.
  - destruct H as [<-|[]]. reflexivity.
  - destruct (Ascii.eqb d c) eqn:E.
    + destruct H as [<-|H]; [reflexivity | now apply IH].
    + destruct (Js.split c r) as [|h t] eqn:Es.
      * destruct H as [<-|[]]. simpl. now rewrite E.
      * destruct H as [<-|H].
        -- simpl. rewrite E. apply IH. now left.
        -- apply IH. now right.
Qed.

(** X6: a unit whose location contains a comma is never found.  No
    element of [locations.split(',')] contains a comma, so the root cause
    of a successful [GET /root-cause] answer and every critical unit of a
    [GET /analyze-region] answer have a comma-free location, and
    totalUnits is the number of location-matching units with a comma-free
    location: no unit with a comma in its location is counted. *)
Theorem X6_locations_with_comma_never_match
  (s : Store) (type region locations : option string) :
  (forall body, getRootCause s type locations = Json body ->
     hasChar "," (Props.location (rootCause body)) = false)
  /\ (forall regionBody,
        getAnalyzeRegion s region locations = Json regionBody ->
        (forall u, In u (criticalUnits regionBody) ->
           hasChar "," (Props.location (props u)) = false)
        /\ totalUnits regionBody
           = length
               (filter (fun n =>
                          hasLabel "InfrastructureUnit" n
                          && IN (Props.location (properties n))
                                (Js.split "," (paramValue locations))
                          && negb (hasChar ","
                                     (Props.location (properties n))))
                       (nodes s))).
Proof.
  split.
  - intros body H. apply getRootCause_Json_located in H.
    destruct H as (l & _ & root & Hc & ->).
    apply candidates_In in Hc. destruct Hc as (_ & _ & _ & Hloc).
    eapply split_no_separator. exact Hloc.
  - intros regionBody H. unfold getAnalyzeRegion in H.
    destruct locations as [l|]; [|discriminate]. injection H as <-.
    cbn [criticalUnits totalUnits]. split.
    + intros u Hu. apply in_map_iff in Hu. destruct Hu as ([n c] & <- & Hr).
      unfold criticalResult, limit in Hr. apply firstn_In in Hr.
      apply sortBy_In in Hr. apply filter_In in Hr. destruct Hr as [Hr _].
      apply in_map_iff in Hr. destruct Hr as (n' & E & Hn).
      injection E as -> _. apply matchUnits_In in Hn.
      destruct Hn as (_ & _ & Hloc). apply IN_In in Hloc.
      eapply split_no_separator. exact Hloc.
    + unfold totalResult, inRegion, matchUnits. cbn [paramValue].
      f_equal. apply filter_ext. intros n.
      destruct (hasLabel "InfrastructureUnit" n); [|reflexivity].
      destruct (IN (Props.location (properties n)) (Js.split "," l))
        eqn:E; [|reflexivity].
      apply IN_In in E. now rewrite (split_no_separator _ _ _ E).
Qed.

End Answers.

(** ** [join(',')] on the page, [split(',')] in the handler *)

Section JoinSplit.

Import Cypher Reach Routes Network Examples.

Lemma X6_witness :
  getRootCause scenario1 (Some "power") (Some "north,south")
  = Json (bodyFor scenario1 P1)
  /\ hasChar "," (Props.location (rootCause (bodyFor scenario1 P1))) = false.
Proof.
  assert (getRootCause scenario1 (Some "power") (Some "north,south")
          = Json (bodyFor scenario1 P1)) as H by (vm_compute; reflexivity).
  split; [exact H|].
  exact (proj1 (X6_locations_with_comma_never_match
                  scenario1 (Some "power") None (Some "north,south")) _ H).
Defined.

Lemma split_plain (c : ascii) (x : string) :
  hasChar c x = false -> Js.split c x = [x].
Proof.
  induction x as [|d r IH]; simpl; intros H; [reflexivity|].
  apply orb_false_iff in H. destruct H as [E H].
  rewrite E, (IH H). reflexivity.
Qed.

Lemma split_append (c : ascii) (x rest : string) :
  hasChar c x = false ->
  Js.split c (x ++ String c rest)%string = x :: Js.split c rest.
Proof.
  induction x as [|d r IH]; simpl; intros H.
  - now rewrite Ascii.eqb_refl.
  - apply orb_false_iff in H. destruct H as [E H].
    rewrite E, (IH H). reflexivity.
Qed.

Lemma split_join_plain (c : ascii) (l : list string) :
  l <> [] ->
  (forall x, In x l -> hasChar c x = false) ->
  Js.split c (Js.join (String c "") l) = l.
Proof.
  unfold Js.join. induction l as [|x t IH]; intros Hne Hplain;
    [contradiction|].
  destruct t as [|y t'].
  - simpl. apply split_plain, Hplain. now left.
  - change (String.concat (String c "") (x :: y :: t'))
      with (x ++ String c (String.concat (String c "") (y :: t')))%string.
    rewrite split_append by (apply Hplain; now left).
    f_equal. apply IH; [discriminate|].
    intros z Hz. apply Hplain. now right.
Qed.

(** X7: the page joins a region's locations with "," and the handler
    splits the parameter at ","; when the list is not empty and no location
    contains a comma, the handler works on exactly the list the page held,
    so its candidates are the units located in the region. *)
Theorem X7_split_after_join
  (s : Store) (type : string) (locations : list string) :
  locations <> [] ->
  (forall x, In x locations -> hasChar "," x = false) ->
  Js.split "," (Js.join "," locations) = locations
  /\ forall n,
       In n (candidates s type (Js.split "," (Js.join "," locations)))
       <-> In n (nodes s)
           /\ hasLabel "InfrastructureUnit" n = true
           /\ Props.type (properties n) = type
           /\ In (Props.location (properties n)) locations.
Proof.
  intros Hne Hplain.
  assert (Js.split "," (Js.join "," locations) = locations) as E
    by (now apply split_join_plain).
  split; [exact E|]. intros n. rewrite E. apply candidates_In.
Qed.

Lemma X7_witness :
  ["Ennore"; "Red Hills"] <> []
  /\ (forall x, In x ["Ennore"; "Red Hills"] -> hasChar "," x = false)
  /\ Js.split "," (Js.join "," ["Ennore"; "Red Hills"])
     = ["Ennore"; "Red Hills"].
Proof.
  assert (forall x, In x ["Ennore"; "Red Hills"] -> hasChar "," x = false)
    as H.
  { intros x [<-|[<-|[]]]; reflexivity. }
  split; [discriminate|]. split; [exact H|].
  refine (proj1 (X7_split_after_join scenario1 "power"
                   ["Ennore"; "Red Hills"] _ H)).
  discriminate.
Defined.

Lemma split_length (c : ascii) (str : string) :
  length (Js.split c str) = S (countChar c str).
Proof.
  induction str as [|d r IH]; simpl; [reflexivity|].
  destruct (Ascii.eqb d c); simpl.
  - now rewrite IH.
  - destruct (Js.split c r); simpl in *; [discriminate IH | exact IH].
Qed.

Lemma countChar_append (c : ascii) (a b : string) :
  countChar c (a ++ b)%string = countChar c a + countChar c b.
Proof. induction a as [|d r IH]; simpl; [reflexivity | rewrite IH; lia]. Qed.

Lemma countChar_join (c : ascii) (l : list string) :
  l <> [] ->
  S (countChar c (Js.join (String c "") l))
  = length l + list_sum (map (countChar c) l).
Proof.
  unfold Js.join. induction l as [|x t IH]; intros Hne; [contradiction|].
  destruct t as [|y t'].
  - simpl. lia.
  - change (String.concat (String c "") (x :: y :: t'))
      with (x ++ String c (String.concat (String c "") (y :: t')))%string.
    rewrite countChar_append.
    assert (y :: t' <> []) as Hne' by discriminate.
    specialize (IH Hne').
    assert (forall rest, countChar c (String c rest) = S (countChar c rest))
      as Hsep by (intros rest; simpl; now rewrite Ascii.eqb_refl).
    rewrite Hsep. cbn [map list_sum fold_right length] in *. lia.
Qed.

Lemma hasChar_count (c : ascii) (x : string) :
  hasChar c x = true -> 0 < countChar c x.
Proof.
  induction x as [|d r IH]; simpl; [discriminate|].
  destruct (Ascii.eqb d c); simpl; [lia | exact IH].
Qed.

(** X8: a location that contains a comma does not survive the trip.  The
    handler's list then has more elements than the page's list (one more
    per comma), and the location itself is not among them. *)
Theorem X8_comma_in_location_breaks_round_trip
  (c : ascii) (locations : list string) (x : string) :
  In x locations -> hasChar c x = true ->
  length (Js.split c (Js.join (String c "") locations))
  = length locations + list_sum (map (countChar c) locations)
  /\ length locations
     < length (Js.split c (Js.join (String c "") locations))
  /\ ~ In x (Js.split c (Js.join (String c "") locations)).
Proof.
  intros Hin Hc.
  assert (locations <> []) as Hne by (intros ->; contradiction).
  assert (length (Js.split c (Js.join (String c "") locations))
          = length locations + list_sum (map (countChar c) locations))
    as Hlen.
  { rewrite split_length. now apply countChar_join. }
  split; [exact Hlen|]. split.
  - rewrite Hlen. apply hasChar_count in Hc.
    assert (countChar c x <= list_sum (map (countChar c) locations)).
    { clear - Hin. induction locations as [|y t IH]; [contradiction|].
      simpl. destruct Hin as [->|Hin]; [lia|]. specialize (IH Hin). lia. }
    lia.
  - intros H. apply split_no_separator in H. congruence.
Qed.

Lemma X8_witness :
  In "Guindy, Chennai" ["Adyar"; "Guindy, Chennai"]
  /\ hasChar "," "Guindy, Chennai" = true
  /\ Js.split "," (Js.join "," ["Adyar"; "Guindy, Chennai"])
     = ["Adyar"; "Guindy"; " Chennai"]
  /\ ~ In "Guindy, Chennai"
         (Js.split "," (Js.join "," ["Adyar"; "Guindy, Chennai"])).
Proof.
  assert (In "Guindy, Chennai" ["Adyar"; "Guindy, Chennai"]) as H
    by (simpl; tauto).
  split; [exact H|]. split; [reflexivity|]. split; [reflexivity|].
  exact (proj2 (proj2 (X8_comma_in_location_breaks_round_trip
                         "," ["Adyar"; "Guindy, Chennai"]
                         "Guindy, Chennai" H eq_refl))).
Defined.

End JoinSplit.

(** ** [GET /critical] against [GET /infrastructure] *)

Section Links.

Import Cypher Reach Routes Network Examples.

Lemma list_sum_perm (l l' : list nat) :
  Permutation l l' -> list_sum l = list_sum l'.
Proof. induction 1; simpl; lia. Qed.

Lemma filter_length_sum {A : Type} (p : A -> bool) (l : list A) :
  length (filter p l) = list_sum (map (fun a => if p a then 1 else 0) l).
Proof.
  induction l as [|x t IH]; simpl; [reflexivity|].
  destruct (p x); simpl; now rewrite IH.
Qed.

Lemma list_sum_map_add {A : Type} (f g : A -> nat) (l : list A) :
  list_sum (map (fun a => f a + g a) l)
  = list_sum (map f l) + list_sum (map g l).
Proof. induction l as [|x t IH]; simpl; [reflexivity | rewrite IH; lia]. Qed.

(** Counting the pairs of a relation by rows or by columns. *)
Lemma sum_filter_swap {A B : Type} (P : A -> B -> bool)
  (la : list A) (lb : list B) :
  list_sum (map (fun a => length (filter (P a) lb)) la)
  = list_sum (map (fun b => length (filter (fun a => P a b) la)) lb).
Proof.
  induction la as [|a t IH]; simpl.
  - induction lb as [|b r IHb]; simpl; [reflexivity | exact IHb].
  - rewrite IH, filter_length_sum, <- list_sum_map_add.
    f_equal. apply map_ext. intros b. destruct (P a b); reflexivity.
Qed.

Lemma unique_in_counts_once (D : list string) (x : string) :
  NoDup D -> In x D ->
  list_sum (map (fun k => if String.eqb k x then 1 else 0) D) = 1.
Proof.
  induction D as [|d t IH]; intros Hnd Hin; [contradiction|].
  inversion Hnd as [|? ? Hd Ht]; subst. simpl.
  destruct (String.eqb d x) eqn:E.
  - apply String.eqb_eq in E. subst d.
    assert (list_sum (map (fun k => if String.eqb k x then 1 else 0) t) = 0)
      as ->; [|reflexivity].
    clear - Hd. induction t as [|y r IHr]; simpl; [reflexivity|].
    destruct (String.eqb y x) eqn:Ey.
    + apply String.eqb_eq in Ey. subst. exfalso. apply Hd. now left.
    + apply IHr. intros H. apply Hd. now right.
  - apply String.eqb_neq in E. destruct Hin as [->|Hin]; [congruence|].
    now apply IH.
Qed.

Lemma group_counts_add_up (D keys : list string) :
  NoDup D -> (forall k, In k keys -> In k D) ->
  list_sum (map (fun k => length (filter (String.eqb k) keys)) D)
  = length keys.
Proof.
  intros Hnd. induction keys as [|x t IH]; intros Hin.
  - simpl. induction D as [|d r IHd]; simpl; [reflexivity|].
    apply IHd; [now inversion Hnd | intros k []].
  - assert (map (fun k => length (filter (String.eqb k) (x :: t))) D
            = map (fun k => (if String.eqb k x then 1 else 0)
                            + length (filter (String.eqb k) t)) D) as ->.
    { apply map_ext. intros k. simpl.
      destruct (String.eqb k x); reflexivity. }
    rewrite list_sum_map_add, IH.
    + rewrite unique_in_counts_once; [reflexivity | assumption|].
      apply Hin. now left.
    + intros k Hk. apply Hin. now right.
Qed.

Lemma getCritical_row (s : Store) (row : CriticalRow) :
  In row (getCritical s) ->
  In (name row) (incomingNames s)
  /\ dependencyCount row
     = length (filter (String.eqb (name row)) (incomingNames s)).
Proof.
  intros H. unfold getCritical in H. fold (incomingNames s) in H.
  apply in_map_iff in H. destruct H as ([k c] & <- & H).
  apply sortBy_In in H. apply groupCount_In in H. exact H.
Qed.

Lemma getCritical_counts_sum (s : Store) :
  list_sum (map dependencyCount (getCritical s)) = length (matchIncoming s).
Proof.
  unfold getCritical. fold (incomingNames s). rewrite map_map.
  cbn [dependencyCount].
  rewrite (list_sum_perm
             (map (fun x => snd x)
                  (orderByDesc snd (groupCount (incomingNames s))))
             (map snd (groupCount (incomingNames s)))).
  - unfold groupCount. rewrite map_map. cbn [snd].
    rewrite group_counts_add_up.
    + unfold incomingNames. apply length_map.
    + apply distinctNames_NoDup.
    + intros k Hk. apply distinctNames_In. simpl. tauto.
  - apply Permutation_map, sortBy_perm.
Qed.

(** X9: every entry of [GET /critical] has a count of at least 1, and the
    counts of all entries add up to the number of pairs the query matches:
    one per [InfrastructureUnit] of the scan and [DEPENDS_ON] relationship
    entering it.  No matched relationship is dropped or counted twice by
    the grouping. *)
Theorem X9_critical_counts_positive_and_add_up (s : Store) :
  (forall row, In row (getCritical s) -> 1 <= dependencyCount row)
  /\ list_sum (map dependencyCount (getCritical s))
     = length (matchIncoming s)
  /\ length (getCritical s) <= length (matchIncoming s).
Proof.
  assert (forall row, In row (getCritical s) -> 1 <= dependencyCount row)
    as Hpos.
  { intros row H. apply getCritical_row in H. destruct H as [Hin ->].
    assert (In (name row) (filter (String.eqb (name row)) (incomingNames s)))
      as Hf.
    { apply filter_In. split; [assumption | apply String.eqb_refl]. }
    destruct (filter _ _); [contradiction | simpl; lia]. }
  pose proof (getCritical_counts_sum s) as Hsum.
  split; [exact Hpos|]. split; [exact Hsum|].
  rewrite <- Hsum. clear Hsum.
  induction (getCritical s) as [|row t IH]; simpl; [lia|].
  assert (1 <= dependencyCount row) by (apply Hpos; now left).
  assert (length t <= list_sum (map dependencyCount t)).
  { apply IH. intros r Hr. apply Hpos. now right. }
  lia.
Qed.

(** Filtering a list of nodes keeps their identities distinct. *)
Lemma filter_keeps_distinct_nids (keep : Node -> bool) (ns : list Node) :
  NoDup (map nid ns) -> NoDup (map nid (filter keep ns)).
Proof.
  intros Hnd. induction ns as [|n rest IH]; [constructor|].
  simpl in Hnd. inversion Hnd as [|? ? Hfresh Hrest]; subst.
  simpl. destruct (keep n); [|now apply IH].
  simpl. constructor; [|now apply IH].
  intros Hin. apply Hfresh. apply in_map_iff in Hin.
  destruct Hin as (m & E & Hm). apply filter_In in Hm.
  apply in_map_iff. exists m. tauto.
Qed.

Lemma NoDup_map_inj {A B : Type} (f : A -> B) (l : list A) (x y : A) :
  NoDup (map f l) -> In x l -> In y l -> f x = f y -> x = y.
Proof.
  induction l as [|z t IH]; simpl; intros H Hx Hy E; [contradiction|].
  inversion H as [|? ? Hz Ht]; subst.
  destruct Hx as [->|Hx], Hy as [->|Hy].
  - reflexivity.
  - exfalso. apply Hz. rewrite E. now apply in_map.
  - exfalso. apply Hz. rewrite <- E. now apply in_map.
  - now apply IH.
Qed.

Lemma dependsOn_In (s : Store) (r : Rel) :
  In r (dependsOn s) -> In r (rels s).
Proof. unfold dependsOn. intros H. now apply filter_In in H. Qed.

(** In a well-formed store whose depended-on nodes are all units, the
    units with property [q] that a relationship enters number one or
    none. *)
Lemma entered_units (s : Store) (q : Node -> bool) (r : Rel) :
  wellFormed s -> targetsAreUnits s -> In r (dependsOn s) ->
  length
    (filter (fun n => Nat.eqb (nid (endNode r)) (nid n))
       (filter q (matchUnits s (fun _ => true))))
  = if q (endNode r) then 1 else 0.
Proof.
  intros [Hnd Hends] Hunits Hr.
  set (V := filter q (matchUnits s (fun _ => true))).
  assert (In (endNode r) (nodes s)) as Hin
    by (apply Hends; now apply dependsOn_In).
  assert (forall n, In n V -> In n (nodes s)) as HV.
  { intros n Hn. apply filter_In in Hn. destruct Hn as [Hn _].
    now apply matchUnits_In in Hn. }
  destruct (q (endNode r)) eqn:E.
  - assert (In (endNode r) V) as Hv.
    { apply filter_In. split; [|exact E].
      apply matchUnits_In. split; [assumption|]. split; [|reflexivity].
      now apply Hunits. }
    assert (NoDup (map nid V)) as HndV.
    { unfold V, matchUnits. now repeat apply filter_keeps_distinct_nids. }
    clear - Hv HndV. induction V as [|n t IH]; [contradiction|].
    simpl in HndV. inversion HndV as [|? ? Hn Ht]; subst. simpl.
    destruct (Nat.eqb (nid (endNode r)) (nid n)) eqn:En.
    + apply Nat.eqb_eq in En. simpl. f_equal.
      assert (filter (fun n0 => Nat.eqb (nid (endNode r)) (nid n0)) t = [])
        as ->; [|reflexivity].
      clear - Hn En. induction t as [|m u IHu]; simpl; [reflexivity|].
      destruct (Nat.eqb (nid (endNode r)) (nid m)) eqn:Em.
      * apply Nat.eqb_eq in Em. exfalso. apply Hn. left. congruence.
      * apply IHu. intros H. apply Hn. now right.
    + destruct Hv as [->|Hv]; [rewrite Nat.eqb_refl in En; discriminate|].
      now apply IH.
  - assert (filter (fun n => Nat.eqb (nid (endNode r)) (nid n)) V = [])
      as ->; [|reflexivity].
    destruct (filter _ V) as [|n t] eqn:F; [reflexivity|]. exfalso.
    assert (In n (filter (fun n => Nat.eqb (nid (endNode r)) (nid n)) V))
      as Hn by (rewrite F; now left).
    apply filter_In in Hn. destruct Hn as [Hn En]. apply Nat.eqb_eq in En.
    assert (n = endNode r) as ->.
    { apply (NoDup_map_inj nid (nodes s)); auto. }
    apply filter_In in Hn. destruct Hn as [_ Hq]. congruence.
Qed.

Lemma filter_all {A : Type} (l : list A) : filter (fun _ => true) l = l.
Proof. induction l as [|x t IH]; simpl; [reflexivity | now rewrite IH]. Qed.

Lemma list_sum_ones {A : Type} (l : list A) :
  list_sum (map (fun _ => 1) l) = length l.
Proof. induction l as [|x t IH]; simpl; [reflexivity | now rewrite IH]. Qed.

Lemma matchIncoming_length (s : Store) :
  wellFormed s -> targetsAreUnits s ->
  length (matchIncoming s) = length (dependsOn s).
Proof.
  intros Hwf Hunits. unfold matchIncoming.
  rewrite flat_map_concat_map, length_concat, map_map.
  rewrite (map_ext _ (fun n => length (incoming s n)))
    by (intros n; apply length_map).
  unfold incoming. rewrite sum_filter_swap.
  rewrite <- (list_sum_ones (dependsOn s)).
  f_equal. apply map_ext_in. intros r Hr.
  rewrite <- (filter_all (matchUnits s (fun _ => true))).
  now rewrite (entered_units s (fun _ => true) r Hwf Hunits Hr).
Qed.

(** X10: the ranking agrees with the network the page draws.  In a
    well-formed store in which every node that something depends on is an
    [InfrastructureUnit], the count [GET /critical] reports for a name is
    the number of links of [GET /infrastructure] whose [to] end has that
    name, the names it lists are exactly the names of the [to] ends, and
    all its counts add up to the number of links. *)
Theorem X10_critical_counts_are_incoming_links (s : Store) :
  wellFormed s -> targetsAreUnits s ->
  (forall row, In row (getCritical s) ->
     dependencyCount row
     = length
         (filter (fun l => String.eqb (name row) (Props.name (to l)))
                 (getInfrastructure s)))
  /\ (forall nm,
        In nm (map name (getCritical s))
        <-> In nm (map (fun l => Props.name (to l)) (getInfrastructure s)))
  /\ list_sum (map dependencyCount (getCritical s))
     = length (getInfrastructure s).
Proof.
  intros Hwf Hunits.
  assert (forall nm,
            length (filter (String.eqb nm) (incomingNames s))
            = length
                (filter (fun l => String.eqb nm (Props.name (to l)))
                        (getInfrastructure s))) as Hcount.
  { intros nm. rewrite incomingNames_count.
    unfold incoming. rewrite sum_filter_swap.
    unfold getInfrastructure. rewrite filter_map_length. cbn [to].
    rewrite filter_length_sum. f_equal.
    apply map_ext_in. intros r Hr.
    now apply (entered_units s
                 (fun n => String.eqb nm (Props.name (properties n)))). }
  assert (forall nm,
            In nm (incomingNames s)
            <-> In nm (map (fun l => Props.name (to l))
                           (getInfrastructure s))) as Hnames.
  { intros nm. split; intros H.
    - assert (In nm (filter (String.eqb nm) (incomingNames s))) as Hf.
      { apply filter_In. split; [assumption | apply String.eqb_refl]. }
      pose proof (Hcount nm) as Hc.
      destruct (filter (fun l => String.eqb nm (Props.name (to l)))
                       (getInfrastructure s)) as [|l t] eqn:F.
      + destruct (filter (String.eqb nm) (incomingNames s));
          [contradiction | discriminate].
      + assert (In l (filter (fun l => String.eqb nm (Props.name (to l)))
                             (getInfrastructure s))) as Hl
          by (rewrite F; now left).
        apply filter_In in Hl. destruct Hl as [Hl El].
        apply String.eqb_eq in El. apply in_map_iff. exists l. auto.
    - apply in_map_iff in H. destruct H as (l & <- & Hl).
      pose proof (Hcount (Props.name (to l))) as Hc.
      assert (In l (filter (fun l' => String.eqb (Props.name (to l))
                                        (Props.name (to l')))
                           (getInfrastructure s))) as Hf.
      { apply filter_In. split; [assumption | apply String.eqb_refl]. }
      destruct (filter (String.eqb (Props.name (to l))) (incomingNames s))
        as [|k t] eqn:F.
      + destruct (filter (fun l' => _) (getInfrastructure s));
          [contradiction | discriminate].
      + assert (In k (filter (String.eqb (Props.name (to l)))
                             (incomingNames s))) as Hk
          by (rewrite F; now left).
        apply filter_In in Hk. destruct Hk as [Hk Ek].
        apply String.eqb_eq in Ek. now rewrite Ek. }
  split.
  { intros row H. apply getCritical_row in H. destruct H as [_ ->].
    apply Hcount. }
  split.
  { intros nm. rewrite getCritical_names. apply Hnames. }
  rewrite getCritical_counts_sum. unfold getInfrastructure.
  rewrite length_map. now apply matchIncoming_length.
Qed.

Lemma X10_witness :
  wellFormed scenario1 /\ targetsAreUnits scenario1
  /\ list_sum (map dependencyCount (getCritical scenario1))
     = length (getInfrastructure scenario1).
Proof.
  assert (wellFormed scenario1) as Hwf.
  { split.
    - simpl. repeat constructor; simpl; intuition discriminate.
    - intros r [<-|[<-|[]]]; simpl; tauto. }
  assert (targetsAreUnits scenario1) as Hunits.
  { intros r [<-|[<-|[]]]; reflexivity. }
  split; [exact Hwf|]. split; [exact Hunits|].
  exact (proj2 (proj2 (X10_critical_counts_are_incoming_links
                         scenario1 Hwf Hunits))).
Defined.

End Links.

(** ** The regions of the analysis page *)

Section Grouping.

Import Cypher Analysis.

Variable toLowerCase : string -> string.

Let inArea (a : Area) (loc : string) : bool :=
  sameArea (areaOf toLowerCase loc) a.

Lemma fold_pushLocation (l : list string) (b : Buckets) :
  fold_left (pushLocation toLowerCase) l b
  = {| north := north b ++ filter (inArea North) l;
       central := central b ++ filter (inArea Central) l;
       south := south b ++ filter (inArea South) l;
       itCorridor := itCorridor b ++ filter (inArea ItCorridor) l;
       other := other b ++ filter (inArea Other) l |}.
Proof.
  revert b. induction l as [|loc t IH]; intros b.
  - simpl. rewrite !app_nil_r. now destruct b.
  - cbn [fold_left]. rewrite IH. unfold pushLocation, inArea, areaOf.
    cbn [filter].
    destruct (someIncludes northKeywords (toLowerCase loc));
      [|destruct (someIncludes centralKeywords (toLowerCase loc));
        [|destruct (someIncludes southKeywords (toLowerCase loc));
          [|destruct (someIncludes itKeywords (toLowerCase loc))]]];
      cbn [north central south itCorridor other sameArea];
      rewrite <- ?app_assoc; reflexivity.
Qed.

(** The regions are the five areas in order, each with the locations that
    fall into it, the empty ones left out. *)
Lemma groupLocationsByRegion_areas (l : list string) :
  groupLocationsByRegion toLowerCase l
  = flat_map
      (fun a =>
         match filter (inArea a) l with
         | [] => []
         | locs =>
             [ {| id := areaId a; name := areaName a; icon := areaIcon a;
                  locations := locs |} ]
         end)
      allAreas.
Proof.
  unfold groupLocationsByRegion. rewrite fold_pushLocation.
  cbn [north central south itCorridor other app flat_map allAreas].
  unfold pushRegion.
  destruct (filter (inArea North) l), (filter (inArea Central) l),
    (filter (inArea South) l), (filter (inArea ItCorridor) l),
    (filter (inArea Other) l); reflexivity.
Qed.

Lemma regions_locations (l : list string) :
  flat_map locations (groupLocationsByRegion toLowerCase l)
  = filter (inArea North) l ++ filter (inArea Central) l
    ++ filter (inArea South) l ++ filter (inArea ItCorridor) l
    ++ filter (inArea Other) l.
Proof.
  rewrite groupLocationsByRegion_areas.
  cbn [flat_map allAreas].
  destruct (filter (inArea North) l), (filter (inArea Central) l),
    (filter (inArea South) l), (filter (inArea ItCorridor) l),
    (filter (inArea Other) l);
    cbn [flat_map locations app]; rewrite ?app_nil_r; reflexivity.
Qed.

Lemma areas_partition (l : list string) :
  Permutation
    (filter (inArea North) l ++ filter (inArea Central) l
     ++ filter (inArea South) l ++ filter (inArea ItCorridor) l
     ++ filter (inArea Other) l)
    l.
Proof.
  induction l as [|x t IH]; [constructor|].
  unfold inArea in *. cbn [filter].
  destruct (areaOf toLowerCase x); cbn [sameArea].
  - cbn [app]. now apply perm_skip.
  - apply Permutation_sym, Permutation_cons_app, Permutation_sym, IH.
  - rewrite app_assoc. apply Permutation_sym, Permutation_cons_app.
    rewrite <- app_assoc. apply Permutation_sym, IH.
  - rewrite 2!app_assoc. apply Permutation_sym, Permutation_cons_app.
    rewrite <- 2!app_assoc. apply Permutation_sym, IH.
  - rewrite 3!app_assoc. apply Permutation_sym, Permutation_cons_app.
    rewrite <- 3!app_assoc. apply Permutation_sym, IH.
Qed.

Lemma regions_perm (l : list string) :
  Permutation (flat_map locations (groupLocationsByRegion toLowerCase l)) l.
Proof. rewrite regions_locations. apply areas_partition. Qed.

Lemma region_In (l : list string) (r : Region) :
  In r (groupLocationsByRegion toLowerCase l)
  <-> exists a,
        r = {| id := areaId a; name := areaName a; icon := areaIcon a;
               locations := filter (inArea a) l |}
        /\ filter (inArea a) l <> [].
Proof.
  rewrite groupLocationsByRegion_areas, in_flat_map. split.
  - intros (a & _ & H). exists a.
    destruct (filter (inArea a) l) as [|x t]; [contradiction|].
    destruct H as [<-|[]]. split; [reflexivity | discriminate].
  - intros (a & -> & Hne). exists a. split.
    + destruct a; simpl; tauto.
    + destruct (filter (inArea a) l) as [|x t]; [contradiction|].
      now left.
Qed.

Lemma areaId_inj (a b : Area) : areaId a = areaId b -> a = b.
Proof. destruct a, b; simpl; intros H; try reflexivity; discriminate. Qed.

Lemma sameArea_eq (a b : Area) : sameArea a b = true <-> a = b.
Proof. destruct a, b; simpl; split; intros H; try reflexivity; discriminate. Qed.

(** X11: [groupLocationsByRegion] partitions its input.  The locations of
    the generated regions, taken together, are the input locations, none
    lost and none repeated; a region is generated only with a non-empty
    list, which keeps the input order; the regions carry distinct ids, in
    the order north, central, south, it-corridor, other, so there are at
    most five. *)
Theorem X11_regions_partition_locations (l : list string) :
  let regions := groupLocationsByRegion toLowerCase l in
  Permutation (flat_map locations regions) l
  /\ (forall r, In r regions ->
        locations r <> []
        /\ exists a,
             id r = areaId a /\ name r = areaName a
             /\ locations r
                = filter (fun loc => sameArea (areaOf toLowerCase loc) a) l)
  /\ (exists keep,
        map id regions = filter keep (map areaId allAreas))
  /\ NoDup (map id regions)
  /\ length regions <= 5.
Proof.
  intros regions. subst regions.
  split; [apply regions_perm|]. split.
  { intros r Hr. apply region_In in Hr. destruct Hr as (a & -> & Hne).
    split; [exact Hne|]. exists a. auto. }
  assert (exists keep,
            map id (groupLocationsByRegion toLowerCase l)
            = filter keep (map areaId allAreas)) as (keep & Hkeep).
  { exists (fun i =>
              String.eqb i "north"
              && Nat.ltb 0 (length (filter (inArea North) l))
              || String.eqb i "central"
                 && Nat.ltb 0 (length (filter (inArea Central) l))
              || String.eqb i "south"
                 && Nat.ltb 0 (length (filter (inArea South) l))
              || String.eqb i "it-corridor"
                 && Nat.ltb 0 (length (filter (inArea ItCorridor) l))
              || String.eqb i "other"
                 && Nat.ltb 0 (length (filter (inArea Other) l))).
    rewrite groupLocationsByRegion_areas. cbn [flat_map allAreas].
    destruct (filter (inArea North) l), (filter (inArea Central) l),
      (filter (inArea South) l), (filter (inArea ItCorridor) l),
      (filter (inArea Other) l); reflexivity. }
  split; [exists keep; exact Hkeep|]. split.
  - rewrite Hkeep. apply NoDup_filter. simpl.
    repeat constructor; simpl; intuition discriminate.
  - rewrite <- (length_map id), Hkeep.
    pose proof (filter_length_le keep (map areaId allAreas)) as H.
    simpl in *. lia.
Qed.

(** X12: a location is listed in exactly one region, the one of the first
    keyword group that matches its lower-cased text: a location that
    includes a north keyword is under "north" whatever else it includes,
    and "other" holds exactly the locations that include no keyword. *)
Theorem X12_first_keyword_group_wins (l : list string) (loc : string) :
  In loc l ->
  exists r,
    In r (groupLocationsByRegion toLowerCase l)
    /\ In loc (locations r)
    /\ id r = areaId (areaOf toLowerCase loc)
    /\ (forall r', In r' (groupLocationsByRegion toLowerCase l) ->
          In loc (locations r') -> r' = r)
    /\ (someIncludes northKeywords (toLowerCase loc) = true ->
        id r = "north")
    /\ (id r = "other"
        <-> someIncludes northKeywords (toLowerCase loc) = false
            /\ someIncludes centralKeywords (toLowerCase loc) = false
            /\ someIncludes southKeywords (toLowerCase loc) = false
            /\ someIncludes itKeywords (toLowerCase loc) = false).
Proof.
  intros Hin.
  set (a := areaOf toLowerCase loc).
  assert (In loc (filter (inArea a) l)) as Hloc.
  { apply filter_In. split; [assumption|]. unfold inArea. fold a.
    now apply sameArea_eq. }
  exists {| id := areaId a; name := areaName a; icon := areaIcon a;
            locations := filter (inArea a) l |}.
  split.
  { apply region_In. exists a. split; [reflexivity|].
    intros E. rewrite E in Hloc. contradiction. }
  split; [exact Hloc|]. split; [reflexivity|]. split.
  { intros r' Hr' Hl'. apply region_In in Hr'.
    destruct Hr' as (b & -> & _). cbn [locations] in Hl'.
    apply filter_In in Hl'. destruct Hl' as [_ Hb]. unfold inArea in Hb.
    apply sameArea_eq in Hb. fold a in Hb. now subst b. }
  cbn [id]. subst a. unfold areaOf.
  destruct (someIncludes northKeywords (toLowerCase loc));
    [split; [reflexivity|]; split; [discriminate | intros [H _]; discriminate]|].
  destruct (someIncludes centralKeywords (toLowerCase loc));
    [split; [discriminate|]; split;
       [discriminate | intros (_ & H & _); discriminate]|].
  destruct (someIncludes southKeywords (toLowerCase loc));
    [split; [discriminate|]; split;
       [discriminate | intros (_ & _ & H & _); discriminate]|].
  destruct (someIncludes itKeywords (toLowerCase loc));
    [split; [discriminate|]; split;
       [discriminate | intros (_ & _ & _ & H); discriminate]|].
  split; [discriminate|]. split; [auto | reflexivity].
Qed.

(** X13: the regions offered on the page, built from the distinct
    locations of the graph's nodes, list every node location in one region
    and only once, however many nodes share it. *)
Theorem X13_each_location_offered_once (nodeLocations : list string) :
  NoDup (flat_map locations (regionsOf toLowerCase nodeLocations))
  /\ (forall loc,
        In loc (flat_map locations (regionsOf toLowerCase nodeLocations))
        <-> In loc nodeLocations).
Proof.
  unfold regionsOf, uniqueValues.
  pose proof (regions_perm (distinctNames [] nodeLocations)) as Hp.
  split.
  - apply (Permutation_NoDup (Permutation_sym Hp)).
    apply distinctNames_NoDup.
  - intros loc. split; intros H.
    + apply (Permutation_in _ Hp) in H. apply distinctNames_In in H. tauto.
    + apply (Permutation_in _ (Permutation_sym Hp)).
      apply distinctNames_In. simpl. tauto.
Qed.

End Grouping.

Section GroupingWitness.

Import Analysis.

(** With lower-case input, the identity stands for [toLowerCase]. *)
Example group_example :
  map (fun r => (id r, locations r))
      (groupLocationsByRegion (fun x => x)
         ["ennore port"; "adyar"; "north beach road"; "porur"])
  = [ ("north", ["ennore port"; "north beach road"]);
      ("south", ["adyar"]); ("other", ["porur"]) ].
Proof. reflexivity. Qed.

Lemma X12_witness :
  In "north beach road" ["adyar"; "north beach road"]
  /\ exists r,
       In r (groupLocationsByRegion (fun x => x)
               ["adyar"; "north beach road"])
       /\ In "north beach road" (locations r)
       /\ id r = "north".
Proof.
  assert (In "north beach road" ["adyar"; "north beach road"]) as H
    by (simpl; tauto).
  split; [exact H|].
  destruct (X12_first_keyword_group_wins (fun x => x)
              ["adyar"; "north beach road"] "north beach road" H)
    as (r & Hr & Hl & _ & _ & Hn & _).
  exists r. split; [exact Hr|]. split; [exact Hl|].
  apply Hn. reflexivity.
Defined.

End GroupingWitness.

(** ** [analyzeRootCause] on the page *)

Section Client.

Import Cypher Reach Routes Network Analysis Examples.

Variable encodeURIComponent : string -> string.
Variable fetch : string -> FetchOutcome.

Lemma orElse_nonempty (a : option string) (b : string) :
  b <> "" -> orElse a b <> "".
Proof.
  intros Hb. unfold orElse. destruct a as [v|]; [|assumption].
  destruct (String.eqb v "") eqn:E; [assumption|].
  now apply String.eqb_neq.
Qed.

Lemma receive_sets_one (problemId : string) (region : Region)
  (outcome : FetchOutcome) (st : State) :
  result st = None -> error st = None ->
  let st' := receive problemId region outcome st in
  regions st' = regions st
  /\ selectedProblem st' = selectedProblem st
  /\ selectedRegion st' = selectedRegion st
  /\ (result st' = None <-> error st' <> None).
Proof.
  intros Hr He. unfold receive.
  destruct outcome as [message|[data|status errorData]];
    [| |destruct (ok status)];
    cbn [setError setResult regions selectedProblem selectedRegion
         result error];
    rewrite ?Hr, ?He; repeat split; try discriminate; try tauto;
    intros H; try discriminate; exfalso; now apply H.
Qed.

(** X14: what a click on "analyze" leaves behind.  Without a selected
    problem, without a selected region, or with a selected region id that
    no region carries, the state stays as it is; otherwise the regions and
    the selections are kept, isAnalyzing ends false, and exactly one of
    result and error is set.  When the backend answers with a non-2xx
    status, it is the error that is set, to a non-empty text. *)
Theorem X14_analysis_sets_result_or_error (st : State) :
  let st' := analyzeRootCause encodeURIComponent fetch st in
  let chosen :=
    find (fun r => String.eqb (id r) (paramValue (selectedRegion st)))
         (regions st) in
  ((Js.falsy (selectedProblem st) = true
    \/ Js.falsy (selectedRegion st) = true
    \/ chosen = None) -> st' = st)
  /\ (Js.falsy (selectedProblem st) = false ->
      Js.falsy (selectedRegion st) = false ->
      forall region, chosen = Some region ->
        regions st' = regions st
        /\ selectedProblem st' = selectedProblem st
        /\ selectedRegion st' = selectedRegion st
        /\ isAnalyzing st' = false
        /\ (result st' = None <-> error st' <> None)
        /\ (forall status errorData,
              fetch (rootCauseUrl encodeURIComponent
                       (paramValue (selectedProblem st))
                       (Js.join "," (locations region)))
              = Responded (Status status errorData) ->
              ok status = false ->
              result st' = None
              /\ exists text, error st' = Some text /\ text <> "")).
Proof.
  intros st' chosen. subst st' chosen. unfold analyzeRootCause. split.
  - intros [H|[H|H]].
    + now rewrite H.
    + rewrite H, orb_true_r. reflexivity.
    + rewrite H. now destruct (_ || _).
  - intros Hp Hr region Hfind. rewrite Hp, Hr, Hfind. cbn [orb].
    set (st1 := setError None (setResult None (setIsAnalyzing true st))).
    destruct (receive_sets_one (paramValue (selectedProblem st)) region
                (fetch (rootCauseUrl encodeURIComponent
                          (paramValue (selectedProblem st))
                          (Js.join "," (locations region))))
                st1 eq_refl eq_refl) as (H1 & H2 & H3 & H4).
    cbn [setIsAnalyzing regions selectedProblem selectedRegion isAnalyzing
         result error].
    split; [exact H1|]. split; [exact H2|]. split; [exact H3|].
    split; [reflexivity|]. split; [exact H4|].
    intros status errorData Hfetch Hok. rewrite Hfetch.
    unfold receive. rewrite Hok.
    cbn [setError result error st1 setResult]. split; [reflexivity|].
    eexists. split; [reflexivity|].
    apply orElse_nonempty, orElse_nonempty. discriminate.
Qed.

(** X15: the page and the handler together.  Let a problem and a region be
    selected, the region's locations not empty, comma-free and not the
    single empty text, and let [fetch] deliver the answer of
    [GET /root-cause] for the parameters of the URL.  Then no 400 answer
    arises: if no unit of the problem's type lies in the region, the page
    shows the handler's 404 details, which name the type and the
    locations; otherwise it shows a result whose root cause is a unit of
    that type in the region with the maximal count, and whose
    affectedServices is that count. *)
Theorem X15_page_shows_root_cause_or_not_found
  (s : Store) (st : State) (problemId regionId : string) (region : Region) :
  selectedProblem st = Some problemId -> problemId <> "" ->
  selectedRegion st = Some regionId -> regionId <> "" ->
  find (fun r => String.eqb (id r) regionId) (regions st) = Some region ->
  locations region <> [] ->
  (forall x, In x (locations region) -> hasChar "," x = false) ->
  Js.join "," (locations region) <> "" ->
  fetch (rootCauseUrl encodeURIComponent problemId
           (Js.join "," (locations region)))
  = Responded
      (getRootCause s (Some problemId)
                    (Some (Js.join "," (locations region)))) ->
  let st' := analyzeRootCause encodeURIComponent fetch st in
  let found := candidates s problemId (locations region) in
  (found = [] ->
   result st' = None
   /\ error st'
      = Some ("No " ++ problemId
              ++ " infrastructure found in the selected region. Available locations: "
              ++ Js.join ", " (locations region))%string)
  /\ (found <> [] ->
      error st' = None
      /\ exists shown root,
           result st' = Some shown
           /\ In root found
           /\ rootCause shown = Some (properties root)
           /\ Analysis.region shown = name region
           /\ affectedServices shown = countDependents s root
           /\ forall c, In c found ->
                countDependents s c <= countDependents s root).
Proof.
  intros Hp Hpne Hr Hrne Hfind Hne Hplain Hjoin Hfetch st' found.
  subst st' found. unfold analyzeRootCause.
  rewrite Hp, Hr. cbn [paramValue].
  rewrite (falsy_Some _ Hpne), (falsy_Some _ Hrne). cbn [orb].
  rewrite Hfind, Hfetch.
  rewrite (getRootCause_valid s problemId _ Hpne Hjoin).
  rewrite (split_join_plain "," (locations region) Hne Hplain).
  destruct (rootResult s problemId (locations region))
    as [|record rest] eqn:E.
  - apply rootResult_nil in E. split; [|intros H; contradiction].
    intros _. split; reflexivity.
  - pose proof E as Hhead. apply rootResult_head in Hhead.
    destruct Hhead as (l1 & l2 & Ec & Hs & H1 & H2).
    split.
    { intros Hnil. rewrite Hnil in Ec. destruct l1; discriminate. }
    intros _. split; [reflexivity|].
    eexists. exists (fst record). split; [reflexivity|].
    cbn [Analysis.rootCause Analysis.region Analysis.affectedServices
         Routes.rootCause Routes.affectedServices bodyFor].
    split; [rewrite Ec; apply in_or_app; right; now left|].
    split; [reflexivity|]. split; [reflexivity|]. split; [reflexivity|].
    intros c Hc. rewrite Ec in Hc. rewrite <- Hs. apply in_app_or in Hc.
    destruct Hc as [Hc|[<-|Hc]].
    + specialize (H1 c Hc). lia.
    + lia.
    + now apply H2.
Qed.

End Client.

Section ClientWitness.

Import Cypher Reach Routes Network Analysis Examples.

Lemma X14_witness :
  let st :=
    {| regions := groupLocationsByRegion (fun x => x) ["north"];
       selectedProblem := Some "water"; selectedRegion := Some "north";
       isAnalyzing := false; result := None; error := None |} in
  let fetch := fun _ : string =>
    Responded (getRootCause scenario1 (Some "water") (Some "north")) in
  error (analyzeRootCause (fun x => x) fetch st)
  = Some "No water infrastructure found in the selected region. Available locations: north"
  /\ result (analyzeRootCause (fun x => x) fetch st) = None
  /\ isAnalyzing (analyzeRootCause (fun x => x) fetch st) = false.
Proof.
  intros st fetch.
  destruct (X14_analysis_sets_result_or_error (fun x => x) fetch st)
    as [_ H].
  destruct (H eq_refl eq_refl _ eq_refl) as (_ & _ & _ & Hb & _ & _).
  split; [reflexivity|]. split; [reflexivity | exact Hb].
Defined.

Lemma X15_witness :
  let st :=
    {| regions := groupLocationsByRegion (fun x => x) ["north"];
       selectedProblem := Some "power"; selectedRegion := Some "north";
       isAnalyzing := false; result := None; error := None |} in
  let fetch := fun _ : string =>
    Responded (getRootCause scenario1 (Some "power") (Some "north")) in
  candidates scenario1 "power" ["north"] <> []
  /\ error (analyzeRootCause (fun x => x) fetch st) = None
  /\ exists shown,
       result (analyzeRootCause (fun x => x) fetch st) = Some shown
       /\ Analysis.affectedServices shown = 2.
Proof.
  intros st fetch.
  assert (candidates scenario1 "power" ["north"] <> []) as Hc
    by (vm_compute; discriminate).
  split; [exact Hc|].
  assert (forall x, In x ["north"] -> hasChar "," x = false) as Hplain.
  { intros x [<-|[]]. reflexivity. }
  destruct (X15_page_shows_root_cause_or_not_found
              (fun x => x) fetch scenario1 st "power" "north"
              {| id := "north"; name := "North Chennai"; icon := "🏭";
                 locations := ["north"] |})
    as [_ H]; try reflexivity; try discriminate; try exact Hplain.
  destruct (H Hc) as (He & shown & root & Hres & _).
  split; [exact He|]. exists shown. split; [exact Hres|].
  vm_compute in Hres. injection Hres as <-. reflexivity.
Defined.

End ClientWitness.

(** ** Cascades *)

Section Cascades.

Import Cypher Reach Routes Network Examples.

Lemma walk_app (E : list Rel) (c d e : nat) (w1 w2 : list Rel) :
  walk E c d w1 -> walk E d e w2 -> walk E c e (w1 ++ w2).
Proof.
  induction 1 as [r Hr|r start w Hr Hw IH]; intros H2.
  - simpl. now apply walk_step.
  - simpl. apply walk_step; [assumption|]. now apply IH.
Qed.

(** X16: dependents cascade upstream.  If [a] transitively depends on
    [r], every dependent of [a] is a dependent of [r], so the count of [r]
    is at least the count of [a]; units that depend on each other (a
    cycle) have equal counts. *)
Theorem X16_upstream_units_have_larger_counts (s : Store) (a r : Node) :
  dependsTransitively s (nid a) (nid r) ->
  (forall i, In i (map nid (dependents s a)) ->
             In i (map nid (dependents s r)))
  /\ countDependents s a <= countDependents s r
  /\ (dependsTransitively s (nid r) (nid a) ->
      countDependents s a = countDependents s r).
Proof.
  assert (forall x y : Node,
            dependsTransitively s (nid x) (nid y) ->
            (forall i, In i (map nid (dependents s x)) ->
                       In i (map nid (dependents s y)))
            /\ countDependents s x <= countDependents s y) as Hmono.
  { intros x y (w & Hw).
    assert (forall i, In i (map nid (dependents s x)) ->
                      In i (map nid (dependents s y))) as Hincl.
    { intros i Hi. apply dependents_reach in Hi. destruct Hi as (w' & Hw').
      apply dependents_reach. exists (w ++ w'). eapply walk_app; eassumption. }
    split; [exact Hincl|].
    rewrite !countDependents_length.
    rewrite <- (length_map nid (dependents s x)).
    rewrite <- (length_map nid (dependents s y)).
    apply NoDup_incl_length; [apply dependents_NoDup | exact Hincl]. }
  intros H. destruct (Hmono a r H) as [Hincl Hle].
  split; [exact Hincl|]. split; [exact Hle|].
  intros H'. destruct (Hmono r a H') as [_ Hge]. lia.
Qed.

Lemma X16_witness :
  dependsTransitively scenario4 (nid unitB) (nid unitA)
  /\ countDependents scenario4 unitB <= countDependents scenario4 unitA.
Proof.
  assert (dependsTransitively scenario4 (nid unitB) (nid unitA)) as H.
  { exists [dep unitC unitA; dep unitB unitC].
    apply (walk_step _ (dep unitC unitA)); [vm_compute; tauto|].
    apply (walk_last _ (dep unitB unitC)). vm_compute. tauto. }
  split; [exact H|].
  exact (proj1 (proj2 (X16_upstream_units_have_larger_counts
                         scenario4 unitB unitA H))).
Defined.

Lemma distinct_head (x : Node) (t : list Node) :
  exists rest, distinct (x :: t) = x :: rest.
Proof. unfold distinct. simpl. eexists. reflexivity. Qed.

(** X17: the impact chain starts next to the root.  With unique unit ids,
    the first entry of a non-empty impactChain is the start node of a
    [DEPENDS_ON] relationship that enters the selected root (the candidate
    of the store whose properties are rootCause): a direct dependent, at
    depth 1. *)
Theorem X17_chain_starts_with_direct_dependent
  (s : Store) (type locations : option string) (body : RootCauseBody)
  (first : Props.t) (rest : list Props.t) :
  uniqueIds s = true ->
  getRootCause s type locations = Json body ->
  impactChain body = first :: rest ->
  exists root r,
    In root
       (candidates s (paramValue type)
                   (Js.split "," (paramValue locations)))
    /\ rootCause body = properties root
    /\ In r (dependsOn s)
    /\ nid (endNode r) = nid root
    /\ properties (startNode r) = first
    /\ In (startNode r, 1) (varLength s root).
Proof.
  intros Hu H Hchain.
  destruct (getRootCause_answer s type locations body Hu H)
    as (root & Hcand & Hroot & _ & Hc & _).
  exists root. rewrite Hchain in Hc. unfold ranked in Hc.
  pose proof (orderByAsc_sorted (@snd Node nat) (varLength s root)) as Hs.
  destruct (orderByAsc snd (varLength s root)) as [|[a n] t] eqn:E.
  { discriminate. }
  cbn [map fst] in Hc. destruct (distinct_head a (map fst t)) as (q & Hq).
  rewrite Hq in Hc. cbn [firstn map] in Hc. injection Hc as Hfirst _.
  assert (In (a, n) (varLength s root)) as Hrow.
  { apply (sortBy_In (fun x y => Nat.leb (snd x) (snd y))).
    fold (orderByAsc (@snd Node nat) (varLength s root)).
    rewrite E. now left. }
  (* some relationship enters the root, so a row of length 1 exists *)
  destruct (varLength_sound _ _ _ _ Hrow) as (w & Hw & Hlen).
  destruct (walk_end _ _ _ _ Hw) as (r0 & Hr0 & Hend0).
  assert (pathOfLength s (nid (startNode r0)) (nid root) 1) as Hdirect.
  { exists [r0]. split; [|reflexivity]. rewrite <- Hend0.
    now apply walk_last. }
  destruct (varLength_complete _ _ _ _ Hdirect) as (d & m & _ & Hm & Hd).
  assert (n <= m) as Hnm.
  { apply (sortBy_In (fun x y => Nat.leb (snd x) (snd y))) in Hd.
    fold (orderByAsc (@snd Node nat) (varLength s root)) in Hd.
    rewrite E in Hd. destruct Hd as [Hd|Hd].
    - injection Hd as _ ->. lia.
    - inversion Hs as [|? ? _ Hall]; subst.
      rewrite Forall_forall in Hall. apply (Hall _ Hd). }
  assert (n = 1) as ->.
  { apply expandInto_bounds in Hrow. lia. }
  (* a row of length 1 is a relationship into the root *)
  clear - Hrow Hfirst Hroot Hcand.
  unfold varLength in Hrow.
  destruct (length (dependsOn s)) as [|f] eqn:L; [contradiction|].
  cbn [expandInto] in Hrow. apply in_flat_map in Hrow.
  destruct Hrow as (p & Hp & Hin).
  destruct (picks_sound _ _ Hp) as (l1 & l2 & Ha & _).
  destruct (Nat.eqb (nid (endNode (fst p))) (nid root)) eqn:Ee;
    [|contradiction].
  apply Nat.eqb_eq in Ee. destruct Hin as [Hin|Hin].
  - injection Hin as <-. exists (fst p).
    split; [exact Hcand|]. split; [exact Hroot|]. split.
    { rewrite Ha. apply in_or_app. right. now left. }
    split; [assumption|]. split; [now symmetry|].
    unfold varLength. rewrite L. cbn [expandInto].
    apply in_flat_map. exists p.
    split; [assumption|]. rewrite (proj2 (Nat.eqb_eq _ _) Ee). now left.
  - apply expandInto_bounds in Hin. lia.
Qed.

Lemma X17_witness :
  uniqueIds scenario1 = true
  /\ exists root r,
       In root (candidates scenario1 "power" (Js.split "," "north"))
       /\ rootCause (bodyFor scenario1 P1) = properties root
       /\ In r (dependsOn scenario1)
       /\ nid (endNode r) = nid root
       /\ properties (startNode r) = properties S1
       /\ In (startNode r, 1) (varLength scenario1 root).
Proof.
  split; [reflexivity|].
  apply (X17_chain_starts_with_direct_dependent
           scenario1 (Some "power") (Some "north") (bodyFor scenario1 P1)
           (properties S1) [properties P2]).
  - reflexivity.
  - vm_compute. reflexivity.
  - vm_compute. reflexivity.
Defined.

End Cascades.
